(** * batch_replace: a shallow embedding of [scripts/batch_replace.py]

    The script selects rules files and target files by regular expression,
    loads (pattern, replacement) rules from every rules file and applies
    them to every target file, with an optional backup and a dry-run mode.

    Layout of the development:
    - [Outcome]: results of code that may raise;
    - [RegexEngine]: the part of Python's [re] module the script calls,
      as an interface, and [Fragment], an executable engine for a small
      fragment of the pattern language;
    - [Platform]: [os.sep] and the text codec of [open(..., encoding="utf-8")];
    - the five functions of the script and [main], over a [world] that holds
      the directory listing, the file store, the console and a log of the
      file operations;
    - the theorems. *)

From Stdlib Require Import Strings.Ascii Strings.String Strings.Byte.
From stdpp Require Import base option list strings gmap pretty sorting.

(** ** Outcomes of code that may raise *)

(** The exceptions the script can meet. [SystemExit] carries the exit code. *)
Inductive exn : Type :=
  | ReError                 (* re.error *)
  | FileNotFoundError
  | UnicodeDecodeError
  | IndexError
  | SystemExit (code : nat).

Inductive outcome (A : Type) : Type :=
  | Ok (a : A)
  | Raise (e : exn).
Arguments Ok {A} a.
Arguments Raise {A} e.

Module Outcome.
Definition bind {A B} (o : outcome A) (k : A → outcome B) : outcome B :=
  match o with
  | Ok a => k a
  | Raise e => Raise e
  end.

(** [None] of a library call that raises [e]. *)
Definition of_option {A} (e : exn) (o : option A) : outcome A :=
  match o with
  | Some a => Ok a
  | None => Raise e
  end.
End Outcome.

#[export] Instance outcome_ret : MRet outcome := @Ok.
#[export] Instance outcome_bind : MBind outcome := λ A B k o, Outcome.bind o k.

(** ** The regular-expression engine

    [re] is Python's library, not code of the script: the script is
    modelled over an interface that has exactly the four entry points it
    uses.  [re_compile] is [None] where Python raises [re.error]; the
    boolean of [re_findall] and [re_sub] is the [re.MULTILINE] flag;
    [re_sub] is [None] where the replacement template is rejected
    ([re.error] again).  [re_findall] returns one item per non-overlapping
    match, scanning left to right.

    The interface has the two outcomes the script provides for: success
    and [re.error].  The other exceptions the library can raise (an
    [OverflowError] for a repeat count too large, an [IndexError] for an
    unknown group name in a template) have no place in it; no theorem
    below says which exception a failing call of the library raises,
    except where the failure is that of a pattern that does not compile
    ([re_compile] is [None]). *)
Class RegexEngine : Type := {
  regex : Type;
  re_compile : string → option regex;
  re_findall : bool → regex → string → list string;
  re_sub : bool → regex → string → string → option string;
  re_search : regex → string → bool;
}.

(** ** An executable engine for a fragment of the pattern language

    Patterns of the fragment are sequences of: an ordinary character, a
    backslash followed by a character that is not an ASCII letter or digit
    (that character, literally), [.] (any character but a newline), [^] and
    [$].  A pattern of the fragment has a fixed width, so that matching at a
    position is deterministic.  Templates of the fragment are sequences of
    ordinary characters, [\\] and [\n].

    The parser tells apart what Python rejects ([Invalid]: a quantifier with
    nothing to repeat at position 0, a backslash at the end) from what is
    valid Python outside the fragment ([Unsupported]); the engine is only
    meaningful on [Parsed] inputs. *)
Module Fragment.

Inductive atom : Type :=
  | Lit (c : ascii)
  | AnyChar
  | Bol
  | Eol.

Inductive parsed (A : Type) : Type :=
  | Parsed (a : A)
  | Invalid
  | Unsupported.
Arguments Parsed {A} a.
Arguments Invalid {A}.
Arguments Unsupported {A}.

Definition parsed_cons {A} (x : A) (r : parsed (list A)) : parsed (list A) :=
  match r with
  | Parsed l => Parsed (x :: l)
  | Invalid => Invalid
  | Unsupported => Unsupported
  end.

Definition to_option {A} (r : parsed A) : option A :=
  match r with
  | Parsed a => Some a
  | _ => None
  end.

Definition newline : ascii := "010"%char.
Definition backslash : ascii := "\"%char.

Definition is_alnum (c : ascii) : bool :=
  let n := nat_of_ascii c in
  (Nat.leb 48 n && Nat.leb n 57) || (Nat.leb 65 n && Nat.leb n 90)
  || (Nat.leb 97 n && Nat.leb n 122).

Definition is_quantifier (c : ascii) : bool :=
  (c =? "*")%char || (c =? "+")%char || (c =? "?")%char.

Definition is_other_special (c : ascii) : bool :=
  (c =? "{")%char || (c =? "}")%char || (c =? "[")%char || (c =? "]")%char
  || (c =? "(")%char || (c =? ")")%char || (c =? "|")%char.

(** [first] is true at position 0 of the pattern. *)
Fixpoint parse_pattern (first : bool) (p : string) : parsed (list atom) :=
  match p with
  | EmptyString => Parsed []
  | String c rest =>
      if (c =? backslash)%char then
        match rest with
        | EmptyString => Invalid
        | String d rest' =>
            if is_alnum d then Unsupported
            else parsed_cons (Lit d) (parse_pattern false rest')
        end
      else if is_quantifier c then
        if first then Invalid else Unsupported
      else if is_other_special c then Unsupported
      else if (c =? ".")%char then parsed_cons AnyChar (parse_pattern false rest)
      else if (c =? "^")%char then parsed_cons Bol (parse_pattern false rest)
      else if (c =? "$")%char then parsed_cons Eol (parse_pattern false rest)
      else parsed_cons (Lit c) (parse_pattern false rest)
  end.

Fixpoint parse_template (t : string) : parsed (list ascii) :=
  match t with
  | EmptyString => Parsed []
  | String c rest =>
      if (c =? backslash)%char then
        match rest with
        | EmptyString => Invalid
        | String d rest' =>
            if (d =? backslash)%char then
              parsed_cons backslash (parse_template rest')
            else if (d =? "n")%char then
              parsed_cons newline (parse_template rest')
            else Unsupported
        end
      else parsed_cons c (parse_template rest)
  end.

(** Matching at one position: [prev] is the character before the
    position ([None] at the start of the text), [rest] the text from the
    position on.  The result is the matched characters. *)
Fixpoint match_here (multiline : bool) (r : list atom)
    (prev : option ascii) (rest : list ascii) : option (list ascii) :=
  match r with
  | [] => Some []
  | Lit c :: r' =>
      match rest with
      | d :: rest' =>
          if (c =? d)%char
          then cons d <$> match_here multiline r' (Some d) rest'
          else None
      | [] => None
      end
  | AnyChar :: r' =>
      match rest with
      | d :: rest' =>
          if (d =? newline)%char then None
          else cons d <$> match_here multiline r' (Some d) rest'
      | [] => None
      end
  | Bol :: r' =>
      match prev with
      | None => match_here multiline r' prev rest
      | Some d =>
          if multiline && (d =? newline)%char
          then match_here multiline r' prev rest
          else None
      end
  | Eol :: r' =>
      match rest with
      | [] => match_here multiline r' prev rest
      | d :: rest' =>
          if (d =? newline)%char
             && (multiline || bool_decide (rest' = []))
          then match_here multiline r' prev rest
          else None
      end
  end.

(** The left-to-right scan shared by [findall] and [sub]: the text cut
    into the characters outside the matches and the matches.  [skip]
    counts the characters of the current match still to pass.  After an
    empty match at a position, the next match starts at a later position
    (a pattern of the fragment has no non-empty match where it has an
    empty one). *)
Inductive piece : Type :=
  | Keep (c : ascii)
  | Match (m : list ascii).

Fixpoint scan (multiline : bool) (r : list atom)
    (prev : option ascii) (rest : list ascii) (skip : nat) : list piece :=
  match rest with
  | [] =>
      match skip, match_here multiline r prev [] with
      | 0, Some m => [Match m]
      | _, _ => []
      end
  | c :: rest' =>
      match skip with
      | S k => scan multiline r (Some c) rest' k
      | 0 =>
          match match_here multiline r prev rest with
          | Some m =>
              match length m with
              | 0 => Match m :: Keep c :: scan multiline r (Some c) rest' 0
              | S k => Match m :: scan multiline r (Some c) rest' k
              end
          | None => Keep c :: scan multiline r (Some c) rest' 0
          end
      end
  end.

Definition chars (s : string) : list ascii := list_ascii_of_string s.
Definition text (l : list ascii) : string := string_of_list_ascii l.

Definition matches (ps : list piece) : list string :=
  omap (λ p, match p with Match m => Some (text m) | Keep _ => None end) ps.

Definition substitute (repl : list ascii) (ps : list piece) : list ascii :=
  mbind (λ p, match p with Match _ => repl | Keep c => [c] end) ps.

(** The pieces put back together. *)
Definition unscan (ps : list piece) : list ascii :=
  mbind (λ p, match p with Match m => m | Keep c => [c] end) ps.

Definition findall (multiline : bool) (r : list atom) (s : string)
    : list string :=
  matches (scan multiline r None (chars s) 0).

Definition sub (multiline : bool) (r : list atom) (repl s : string)
    : option string :=
  t ← to_option (parse_template repl);
  Some (text (substitute t (scan multiline r None (chars s) 0))).

(** [search]: is there a match at some position. *)
Fixpoint search_from (r : list atom) (prev : option ascii)
    (rest : list ascii) : bool :=
  match match_here false r prev rest with
  | Some _ => true
  | None =>
      match rest with
      | [] => false
      | c :: rest' => search_from r (Some c) rest'
      end
  end.

Definition search (r : list atom) (s : string) : bool :=
  search_from r None (chars s).

#[export] Instance engine : RegexEngine := {|
  regex := list atom;
  re_compile p := to_option (parse_pattern true p);
  re_findall := findall;
  re_sub := sub;
  re_search := search;
|}.

End Fragment.

(** ** The Text Transformer: [apply_rules_to_text] *)

Section Transformer.
Context `{RegexEngine}.

(** [re.findall(pattern, text, flags=re.MULTILINE)] and
    [re.sub(pattern, replacement, text, flags=re.MULTILINE)]: both compile
    the pattern string first. *)
Definition findall_multiline (pattern text : string) : outcome (list string) :=
  r ← Outcome.of_option ReError (re_compile pattern);
  Ok (re_findall true r text).

Definition sub_multiline (pattern replacement text : string) : outcome string :=
  r ← Outcome.of_option ReError (re_compile pattern);
  Outcome.of_option ReError (re_sub true r replacement text).

(** The [for] loop, with the two variables it updates. *)
Fixpoint apply_rules_loop (rules : list (string * string))
    (text : string) (counts : list nat) : outcome (string * list nat) :=
  match rules with
  | [] => Ok (text, counts)
  | (pattern, replacement) :: rules' =>
      found ← findall_multiline pattern text;
      let count := length found in
      text' ← sub_multiline pattern replacement text;
      apply_rules_loop rules' text' (counts ++ [count])%list
  end.

Definition apply_rules_to_text (text : string)
    (rules : list (string * string)) : outcome (string * list nat) :=
  apply_rules_loop rules text [].

End Transformer.

(** ** The platform

    [os_sep] is [os.sep].  [decode_text] is what reading a file opened with
    [open(path, "r", encoding="utf-8")] does to its bytes (UTF-8 decoding
    and the translation of line endings; [None] where Python raises
    [UnicodeDecodeError]); [encode_text] is what writing to a file opened
    with [open(path, "w", encoding="utf-8")] does to the text. *)
Class Platform : Type := {
  os_sep : ascii;
  decode_text : list byte → option string;
  encode_text : string → list byte;
}.

(** A platform for the examples: [/] as separator, files of ASCII text,
    and the universal newlines of Python's text mode on reading.  A byte
    above 127 is rejected here, although UTF-8 has such bytes: the
    theorems are over any [Platform], and only the examples use this
    one. *)
Module Posix.
Definition cr : ascii := "013"%char.

Fixpoint universal_newlines (l : list ascii) : list ascii :=
  match l with
  | [] => []
  | c :: l' =>
      if (c =? cr)%char then
        match l' with
        | d :: l'' =>
            if (d =? Fragment.newline)%char
            then Fragment.newline :: universal_newlines l''
            else Fragment.newline :: universal_newlines l'
        | [] => [Fragment.newline]
        end
      else c :: universal_newlines l'
  end.

Definition decode (b : list byte) : option string :=
  if forallb (λ x, Nat.ltb (Byte.to_nat x) 128) b
  then Some (string_of_list_ascii
               (universal_newlines (ascii_of_byte <$> b)))
  else None.

Definition encode (s : string) : list byte :=
  byte_of_ascii <$> list_ascii_of_string s.

#[export] Instance platform : Platform := {|
  os_sep := "/"%char;
  decode_text := decode;
  encode_text := encode;
|}.
End Posix.

(** ** Strings and paths *)

Definition nonempty (s : string) : bool :=
  match s with
  | EmptyString => false
  | String _ _ => true
  end.

(** [s.split(sep)] for a one-character separator. *)
Fixpoint split (sep : ascii) (s : string) : list string :=
  match s with
  | EmptyString => [EmptyString]
  | String c s' =>
      if (c =? sep)%char then EmptyString :: split sep s'
      else
        match split sep s' with
        | h :: t => String c h :: t
        | [] => [String c EmptyString]
        end
  end.

(** [sep.join(parts)]. *)
Fixpoint join (sep : ascii) (parts : list string) : string :=
  match parts with
  | [] => EmptyString
  | [p] => p
  | p :: parts' => p +:+ String sep (join sep parts')
  end.

(** [s.replace(a, b)] for one-character [a] and [b]. *)
Fixpoint replace (a b : ascii) (s : string) : string :=
  match s with
  | EmptyString => EmptyString
  | String c s' => String (if (c =? a)%char then b else c) (replace a b s')
  end.

(** The lines a text file yields when iterated, each with its newline. *)
Fixpoint readlines (s : string) : list string :=
  match s with
  | EmptyString => []
  | String c s' =>
      if (c =? Fragment.newline)%char
      then String c EmptyString :: readlines s'
      else
        match readlines s' with
        | h :: t => String c h :: t
        | [] => [String c EmptyString]
        end
  end.

(** [line.rstrip("\n")]. *)
Fixpoint rstrip_newline (s : string) : string :=
  match s with
  | EmptyString => EmptyString
  | String c s' =>
      let t := rstrip_newline s' in
      if (c =? Fragment.newline)%char && negb (nonempty t)
      then EmptyString
      else String c t
  end.

(** [range(start, stop, step)] for a positive step. *)
Definition range (start stop step : nat) : list nat :=
  (λ k, start + k * step) <$> seq 0 ((stop - start + (step - 1)) `div` step).

Section Paths.
Context `{Platform}.

(** [p.endswith(sep)] and [p.startswith(sep)]. *)
Fixpoint ends_with_sep (p : string) : bool :=
  match p with
  | EmptyString => false
  | String c EmptyString => (c =? os_sep)%char
  | String _ p' => ends_with_sep p'
  end.

Definition starts_with_sep (p : string) : bool :=
  match p with
  | String c _ => (c =? os_sep)%char
  | EmptyString => false
  end.

(** [os.path.join(a, b)], [os.path.basename(p)] and
    [os.path.relpath(path, start)] as [posixpath] has them, over
    [os.sep].  [relpath] is the one of absolute paths without [.] and
    [..] components, which are the paths [os.getcwd] and [os.walk]
    give. *)
Definition os_path_join (a b : string) : string :=
  if starts_with_sep b then b
  else if negb (nonempty a) || ends_with_sep a then a +:+ b
  else a +:+ String os_sep b.

Definition os_path_basename (p : string) : string :=
  default EmptyString (last (split os_sep p)).

Fixpoint common_prefix_length (l1 l2 : list string) : nat :=
  match l1, l2 with
  | x :: l1', y :: l2' =>
      if bool_decide (x = y) then S (common_prefix_length l1' l2') else 0
  | _, _ => 0
  end.

(** [[x for x in p.split(sep) if x]]. *)
Definition components (p : string) : list string :=
  filter (λ x, nonempty x = true) (split os_sep p).

Definition os_path_relpath (path start : string) : string :=
  let start_list := components start in
  let path_list := components path in
  let i := common_prefix_length start_list path_list in
  let rel_list :=
    (replicate (length start_list - i) ".." ++ drop i path_list)%list in
  match rel_list with
  | [] => "."
  | _ => join os_sep rel_list
  end.
End Paths.

(** ** The world

    [listing] is the directory tree under the working directory as
    [os.walk] reports it: for every directory its file names and its
    sub-directories, in the order of the listing.  [files] is the content
    of the files, by path, as [open] and [shutil.copy2] see it.  [console]
    holds the printed lines and [ops] the file operations, in order.

    [listing] is the tree as the walks of [main] find it, which both
    happen before the first write: the backups a run creates are added to
    [files], not to [listing].  A write or a copy to a path always
    succeeds here, and a path that is not in [files] is a missing file:
    directories, links and permissions are not part of the store. *)
#[warning="-register-all"] Inductive dir : Type :=
  | Dir (filenames : list string) (subdirs : list (string * dir)).

Inductive fs_op : Type :=
  | OpRead (path : string)
  | OpCopy (src dst : string)
  | OpWrite (path : string).

(** One constructor per [print] of the script, with the values it formats.
    The text of the [re.error] that the two [Invalid ... regex] lines
    include is the library's. *)
Inductive line : Type :=
  | BackupCreated (backup_path : string)
  | ProcessingTarget (file_path : string)
  | RuleReport (idx : nat) (pattern replacement : string) (cnt : nat)
  | DryRunNoChanges
  | FileUpdated
  | NoChanges
  | InvalidRulesRegex
  | NoRulesFilesMatched
  | FoundRulesFiles (n : nat)
  | RulesFileName (rf : string)
  | InvalidTargetRegex
  | NoTargetFilesMatched
  | FoundTargetFiles (n : nat)
  | ExecutingRules (rules_path : string) (n : nat)
  | Done (targets total_changed : nat) (dry_run : bool).

Record world : Type := World {
  cwd : string;
  listing : dir;
  files : gmap string (list byte);
  console : list line;
  ops : list fs_op;
}.

Definition set_files (f : gmap string (list byte)) (w : world) : world :=
  World (cwd w) (listing w) f (console w) (ops w).
Definition log_op (o : fs_op) (w : world) : world :=
  World (cwd w) (listing w) (files w) (console w) (ops w ++ [o]).
Definition log_line (l : line) (w : world) : world :=
  World (cwd w) (listing w) (files w) (console w ++ [l]) (ops w).

(** Code with effects: a state monad over the world, with exceptions.  The
    world at the point of the [raise] is kept. *)
Definition M (A : Type) : Type := world → outcome A * world.

#[export] Instance M_ret : MRet M := λ A a w, (Ok a, w).
#[export] Instance M_bind : MBind M := λ A B k m w,
  match m w with
  | (Ok a, w') => k a w'
  | (Raise e, w') => (Raise e, w')
  end.

Module Eff.
Definition raise {A} (e : exn) : M A := λ w, (Raise e, w).
Definition lift {A} (o : outcome A) : M A := λ w, (o, w).
Definition get : M world := λ w, (Ok w, w).
Definition print (l : line) : M unit := λ w, (Ok tt, log_line l w).

(** [try: m except re.error: handler]. *)
Definition except_re_error {A} (m : M A) (handler : M A) : M A := λ w,
  match m w with
  | (Raise ReError, w') => handler w'
  | r => r
  end.

(** A [for] loop whose body returns nothing. *)
Fixpoint for_each {A} (l : list A) (body : A → M unit) : M unit :=
  match l with
  | [] => mret tt
  | x :: l' => body x ≫= λ _, for_each l' body
  end.

(** [os.path.isfile(path)]. *)
Definition isfile (path : string) : M bool :=
  λ w, (Ok (bool_decide (is_Some (files w !! path))), w).
End Eff.

Section Script.
Context `{RegexEngine} `{Platform}.

(** [with open(path, "r", encoding="utf-8") as f: text = f.read()]. *)
Definition read_text (path : string) : M string := λ w,
  match files w !! path with
  | None => (Raise FileNotFoundError, w)
  | Some b =>
      match decode_text b with
      | Some t => (Ok t, log_op (OpRead path) w)
      | None => (Raise UnicodeDecodeError, log_op (OpRead path) w)
      end
  end.

(** [with open(path, "w", encoding="utf-8") as f: f.write(text)]. *)
Definition write_text (path text : string) : M unit := λ w,
  (Ok tt, log_op (OpWrite path)
            (set_files (<[path := encode_text text]> (files w)) w)).

(** [shutil.copy2(src, dst)]. *)
Definition copy2 (src dst : string) : M unit := λ w,
  match files w !! src with
  | None => (Raise FileNotFoundError, w)
  | Some b => (Ok tt, log_op (OpCopy src dst)
                        (set_files (<[dst := b]> (files w)) w))
  end.

(** *** The RuleSet Loader: [load_rules_from_file] *)

(** One pass of the loop over [range(0, len(lines), 3)]. *)
Definition load_rules_step (lines : list string)
    (rules : list (string * string)) (i : nat)
    : outcome (list (string * string)) :=
  if bool_decide (i + 1 < length lines) then
    pattern ← Outcome.of_option IndexError (lines !! i);
    replacement ← Outcome.of_option IndexError (lines !! (i + 1));
    if nonempty pattern
    then Ok (rules ++ [(pattern, replacement)])%list
    else Ok rules
  else Ok rules.

Fixpoint load_rules_loop (lines : list string) (indices : list nat)
    (rules : list (string * string)) : outcome (list (string * string)) :=
  match indices with
  | [] => Ok rules
  | i :: indices' =>
      rules' ← load_rules_step lines rules i;
      load_rules_loop lines indices' rules'
  end.

Definition rules_of_lines (lines : list string)
    : outcome (list (string * string)) :=
  load_rules_loop lines (range 0 (length lines) 3) [].

Definition load_rules_from_file (rules_path : string)
    : M (list (string * string)) :=
  is_file ← Eff.isfile rules_path;
  if negb is_file then Eff.raise FileNotFoundError
  else
    text ← read_text rules_path;
    let lines := rstrip_newline <$> readlines text in
    Eff.lift (rules_of_lines lines).

(** *** [backup_file] *)
Definition backup_file (file_path : string) : M unit :=
  let backup_path := file_path +:+ ".backup" in
  copy2 file_path backup_path ;;
  Eff.print (BackupCreated backup_path).

(** *** The File Processor: [process_file] *)

(** [enumerate(zip(rules, counts), 1)]. *)
Definition enumerate_from {A} (start : nat) (l : list A) : list (nat * A) :=
  zip (seq start (length l)) l.

Definition process_file (rules : list (string * string))
    (file_path : string) (overwrite dry_run : bool) : M bool :=
  text ← read_text file_path;
  '(new_text, counts) ← Eff.lift (apply_rules_to_text text rules);
  Eff.print (ProcessingTarget file_path) ;;
  Eff.for_each (enumerate_from 1 (zip rules counts))
    (λ '(idx, ((pattern, replacement), cnt)),
       Eff.print (RuleReport idx pattern replacement cnt)) ;;
  if bool_decide (new_text ≠ text) then
    if dry_run then
      Eff.print DryRunNoChanges ;;
      mret true
    else
      (if negb overwrite then backup_file file_path else mret tt) ;;
      write_text file_path new_text ;;
      Eff.print FileUpdated ;;
      mret true
  else
    Eff.print NoChanges ;;
    mret false.

(** *** The File Selector: [iter_files_with_regex] *)

(** [os.walk(root)], top-down: the directory with its file names, then
    its sub-directories in turn. *)
Fixpoint os_walk (dirpath : string) (d : dir) : list (string * list string) :=
  match d with
  | Dir filenames subdirs =>
      (dirpath, filenames)
      :: (fix walk_subdirs (l : list (string * dir)) :=
            match l with
            | [] => []
            | (name, d') :: l' =>
                (os_walk (os_path_join dirpath name) d'
                 ++ walk_subdirs l')%list
            end) subdirs
  end.

(** The body of the inner loop, for one file name. *)
Definition select_file (compiled : regex) (root dirpath : string)
    (matched_files : list string) (fn : string) : list string :=
  let full_path := os_path_join dirpath fn in
  let rel_path := replace os_sep "/" (os_path_relpath full_path root) in
  if re_search compiled rel_path
  then (matched_files ++ [full_path])%list
  else matched_files.

Definition iter_files_with_regex (path_regex : string) : M (list string) :=
  compiled ← Eff.lift (Outcome.of_option ReError (re_compile path_regex));
  w ← Eff.get;
  let root := cwd w in
  mret (foldl (λ matched_files '(dirpath, filenames),
                 foldl (select_file compiled root dirpath)
                       matched_files filenames)
              [] (os_walk root (listing w))).

(** *** The Orchestrator: [main] *)

(** [rules_files.sort(key=...)]: Python's sort is stable; the keys are
    strings, compared character by character. *)
Fixpoint insert_by_key (key : string → string) (x : string)
    (l : list string) : list string :=
  match l with
  | [] => [x]
  | y :: l' =>
      if String.leb (key x) (key y) then x :: l
      else y :: insert_by_key key x l'
  end.

Definition sort_by_key (key : string → string) (l : list string)
    : list string :=
  foldr (insert_by_key key) [] l.

Record args : Type := Args {
  overwrite : bool;
  dry_run : bool;
  rules_regex : string;
  target_regex : string;
}.

(** The two nested loops at the end of [main], with [total_changed]. *)
Fixpoint process_targets (rules : list (string * string))
    (target_files : list string) (a : args) (total_changed : nat) : M nat :=
  match target_files with
  | [] => mret total_changed
  | target_file :: target_files' =>
      changed ← process_file rules target_file (overwrite a) (dry_run a);
      process_targets rules target_files' a
        (if (changed : bool) then total_changed + 1 else total_changed)
  end.

Fixpoint apply_rules_files (rules_files target_files : list string)
    (a : args) (total_changed : nat) : M nat :=
  match rules_files with
  | [] => mret total_changed
  | rules_path :: rules_files' =>
      rules ← load_rules_from_file rules_path;
      Eff.print (ExecutingRules rules_path (length rules)) ;;
      total_changed' ← process_targets rules target_files a total_changed;
      apply_rules_files rules_files' target_files a total_changed'
  end.

Definition main (a : args) : M unit :=
  rules_files ←
    Eff.except_re_error (iter_files_with_regex (rules_regex a))
      (Eff.print InvalidRulesRegex ;; Eff.raise (SystemExit 1));
  (if bool_decide (rules_files = [])
   then Eff.print NoRulesFilesMatched ;; Eff.raise (SystemExit 2)
   else mret tt) ;;
  let rules_files := sort_by_key os_path_basename rules_files in
  Eff.print (FoundRulesFiles (length rules_files)) ;;
  Eff.for_each rules_files (λ rf, Eff.print (RulesFileName rf)) ;;
  target_files ←
    Eff.except_re_error (iter_files_with_regex (target_regex a))
      (Eff.print InvalidTargetRegex ;; Eff.raise (SystemExit 1));
  (if bool_decide (target_files = [])
   then Eff.print NoTargetFilesMatched ;; Eff.raise (SystemExit 2)
   else mret tt) ;;
  Eff.print (FoundTargetFiles (length target_files)) ;;
  total_changed ← apply_rules_files rules_files target_files a 0;
  Eff.print (Done (length target_files) total_changed (dry_run a)).

(** The exit status of the process: 0 when [main] returns, the code of a
    [SystemExit], and 1 for any other exception that is not caught. *)
Definition exit_code (o : outcome unit) : nat :=
  match o with
  | Ok _ => 0
  | Raise (SystemExit n) => n
  | Raise _ => 1
  end.

End Script.

(** ** The rules file format, as the specification words it

    The lines are cut into consecutive windows of three lines, from index
    0; the last window may have one or two lines.  A window with at least
    two lines is a rule (line 0 the pattern, line 1 the replacement), unless
    the pattern is empty.  These two definitions follow the specification,
    not the code; [rules_of_lines] is compared with them below. *)
Fixpoint windows3 (lines : list string) : list (list string) :=
  match lines with
  | a :: b :: c :: lines' => [a; b; c] :: windows3 lines'
  | [] => []
  | fragment => [fragment]
  end.

Definition rule_of_window (window : list string) : option (string * string) :=
  match window with
  | pattern :: replacement :: _ =>
      if nonempty pattern then Some (pattern, replacement) else None
  | _ => None
  end.

(** The text of a file whose lines are [ls], every line ended by a
    newline. *)
Fixpoint unlines (ls : list string) : string :=
  match ls with
  | [] => EmptyString
  | l :: ls' => l +:+ String Fragment.newline (unlines ls')
  end.

(** ** What [process_file] prints and does, as lists

    [report_lines] is the [Rule ...] lines of a run, [process_console] all
    the lines of a run that read [text] and computed [new_text], and
    [process_ops] the file operations that follow the read. *)
Definition report_lines (rules : list (string * string)) (counts : list nat)
    : list line :=
  (λ '(idx, ((pattern, replacement), cnt)),
     RuleReport idx pattern replacement cnt)
  <$> zip (seq 1 (length (zip rules counts))) (zip rules counts).

Definition process_ops (file_path : string) (changed overwrite dry_run : bool)
    : list fs_op :=
  if changed && negb dry_run then
    ((if overwrite then [] else [OpCopy file_path (file_path +:+ ".backup")])
     ++ [OpWrite file_path])%list
  else [].

Definition process_console (rules : list (string * string))
    (counts : list nat) (file_path : string)
    (changed overwrite dry_run : bool) : list line :=
  (ProcessingTarget file_path :: report_lines rules counts
   ++ (if changed then
         if dry_run then [DryRunNoChanges]
         else (if overwrite then []
               else [BackupCreated (file_path +:+ ".backup")])
              ++ [FileUpdated]
       else [NoChanges]))%list.

(** The operations of a run, after those already in the log. *)
Definition new_ops (before : world) {A} (after : outcome A * world)
    : list fs_op :=
  drop (length (ops before)) (ops after.2).

(** ** The files under the root, as the specification words it

    [files_under] lists every file of a directory tree by the names on the
    way from the root to it, a directory's own files first and then those
    of its sub-directories; [path_under] is the path of such a file, and
    its path relative to the root with [/] between the names is
    [join "/"] of the names.  [valid_tree] holds when no name of the tree is
    empty or contains [os.sep]. *)
Fixpoint files_under (d : dir) : list (list string) :=
  match d with
  | Dir filenames subdirs =>
      (((λ fn, [fn]) <$> filenames)
       ++ (fix under_subdirs (l : list (string * dir)) :=
             match l with
             | [] => []
             | (name, d') :: l' =>
                 ((cons name <$> files_under d') ++ under_subdirs l')%list
             end) subdirs)%list
  end.

Fixpoint has_char (c : ascii) (s : string) : bool :=
  match s with
  | EmptyString => false
  | String d s' => (d =? c)%char || has_char c s'
  end.

Section Trees.
Context `{Platform}.

Definition path_under (root : string) (names : list string) : string :=
  foldl os_path_join root names.

Definition valid_name (name : string) : bool :=
  nonempty name && negb (has_char os_sep name).

Fixpoint valid_tree (d : dir) : bool :=
  match d with
  | Dir filenames subdirs =>
      forallb valid_name filenames
      && (fix valid_subdirs (l : list (string * dir)) :=
            match l with
            | [] => true
            | (name, d') :: l' =>
                valid_name name && valid_tree d' && valid_subdirs l'
            end) subdirs
  end.

End Trees.

Section Selection.
Context `{RegexEngine} `{Platform}.

(** The files under a directory that the File Selector is to return, by
    the specification: those whose path relative to the root, with [/]
    between the names, has a match of the regex.  [pre] holds the names
    from the root to the directory. *)
Definition selected (compiled : regex) (root : string) (pre : list string)
    (under : list (list string)) : list string :=
  path_under root
  <$> filter (λ names, re_search compiled (join "/" names) = true)
        (app pre <$> under).

End Selection.

Section Pairs.
Context `{RegexEngine} `{Platform}.

(** ** The runs of [process_file], pair by pair, as the specification
    words them: for every rules file in turn, its rules are loaded and
    [process_file] is run on every target file in turn.  The result has,
    for every pair of a rules file and a target file, what [process_file]
    returned; [count_changed] counts the pairs for which it returned
    [True]. *)
Fixpoint run_targets (rules : list (string * string))
    (target_files : list string) (a : args) : M (list bool) :=
  match target_files with
  | [] => mret []
  | target_file :: target_files' =>
      changed ← process_file rules target_file (overwrite a) (dry_run a);
      changes ← run_targets rules target_files' a;
      mret (changed :: changes)
  end.

Fixpoint run_rules_files (rules_files target_files : list string) (a : args)
    : M (list (list bool)) :=
  match rules_files with
  | [] => mret []
  | rules_path :: rules_files' =>
      rules ← load_rules_from_file rules_path;
      Eff.print (ExecutingRules rules_path (length rules)) ;;
      changes ← run_targets rules target_files a;
      rows ← run_rules_files rules_files' target_files a;
      mret (changes :: rows)
  end.

Definition count_changed (rows : list (list bool)) : nat :=
  length (filter (λ changed, changed = true) (concat rows)).

End Pairs.

(** The order of two elements by key, as the sort compares them. *)
Definition key_le (key : string → string) (x y : string) : Prop :=
  String.leb (key x) (key y) = true.

(** ** Worlds of the examples *)

Module Examples.

Definition bytes (s : string) : list byte := Posix.encode s.
Definition lines (l : list string) : string :=
  String.concat EmptyString
    ((λ s, s +:+ String Fragment.newline EmptyString) <$> l).

(** The tree of the File Selector's example. *)
Definition txt_tree : dir :=
  Dir ["a.txt"; "a.txt.bak"] [("sub", Dir ["b.txt"] [])].
Definition txt_world : world := World "/home/user" txt_tree ∅ [] [].

(** One rules file with the rule foo -> bar and one target. *)
Definition foo_world : world :=
  World "/r" (Dir ["rules.txt"; "t.txt"] [])
    (<["/r/rules.txt" := bytes (lines ["foo"; "bar"; EmptyString])]>
       (<["/r/t.txt" := bytes "foo foo baz"]> ∅))
    [] [].

(** Two rules files, in two directories, and one target that both
    change. *)
Definition two_rules_world : world :=
  World "/r"
    (Dir ["t.txt"] [("x", Dir ["2.rules"] []); ("y", Dir ["1.rules"] [])])
    (<["/r/x/2.rules" := bytes (lines ["b"; "c"])]>
       (<["/r/y/1.rules" := bytes (lines ["a"; "b"])]>
          (<["/r/t.txt" := bytes "aab"]> ∅)))
    [] [].

(** A rules file of three groups: a rule, a group whose pattern line is
    blank and whose third line is not, and a rule without its third line
    and without a newline at the end of the file. *)
Definition more_rules_text : string :=
  lines ["foo"; "bar"; EmptyString; EmptyString; "zzz"; "x"; "baz"] +:+ "qux".
Definition more_rules_world : world :=
  World "/r" (Dir ["more.rules"] [])
    (<["/r/more.rules" := bytes more_rules_text]> ∅) [] [].

End Examples.

(** The operations that only read. *)
Definition is_read (o : fs_op) : Prop :=
  match o with
  | OpRead _ => True
  | _ => False
  end.

Definition is_copy (o : fs_op) : Prop :=
  match o with
  | OpCopy _ _ => True
  | _ => False
  end.

(** No two files and no two sub-directories of one directory have the same
    name, in the whole tree. *)
Fixpoint distinct_names (d : dir) : bool :=
  match d with
  | Dir filenames subdirs =>
      bool_decide (NoDup filenames)
      && bool_decide (NoDup (fst <$> subdirs))
      && (fix distinct_subdirs (l : list (string * dir)) :=
            match l with
            | [] => true
            | (_, d') :: l' => distinct_names d' && distinct_subdirs l'
            end) subdirs
  end.

(** ** The rules file format, as the docstring of the script has it

    "Each rule consists of three lines: 1. Regex pattern, 2. Replacement
    string, 3. Blank line (separator)". *)
Definition format_rule (rule : string * string) : string :=
  rule.1 +:+ String Fragment.newline
    (rule.2 +:+ String Fragment.newline
       (String Fragment.newline EmptyString)).

Fixpoint format_rules (rules : list (string * string)) : string :=
  match rules with
  | [] => EmptyString
  | rule :: rules' => format_rule rule +:+ format_rules rules'
  end.

(** * Theorems *)

(** ** Outcomes *)

Lemma bind_Ok_inv {A B} (o : outcome A) (k : A → outcome B) (b : B) :
  o ≫= k = Ok b ↔ ∃ a, o = Ok a ∧ k a = Ok b.
Proof.
  destruct o as [a|e]; simpl; split.
  - intros Hk. by exists a.
  - by intros (a' & [= <-] & Hk).
  - intros [=].
  - by intros (a' & [=] & _).
Qed.

(** ** Effects *)

Lemma M_bind_unfold {A B} (m : M A) (k : A → M B) (w : world) :
  (m ≫= k) w
  = match m w with
    | (Ok a, w') => k a w'
    | (Raise e, w') => (Raise e, w')
    end.
Proof. reflexivity. Qed.

(** Running a sequence of effects step by step. *)
Ltac run_M :=
  repeat (rewrite M_bind_unfold; simpl);
  unfold mret, M_ret, Eff.print, Eff.raise, Eff.lift, log_line, log_op,
    set_files;
  simpl.
Ltac step_M :=
  first [ rewrite M_bind_unfold
        | progress unfold Eff.print, Eff.raise, mret, M_ret ];
  cbn beta iota.
Ltac normalise_lists := repeat (rewrite <- app_assoc; simpl).

(** A loop of prints only extends the console. *)
Lemma for_each_print {A} (l : list A) (body : A → M unit) (f : A → line)
    (w : world) :
  (∀ x, body x = Eff.print (f x)) →
  Eff.for_each l body w
  = (Ok tt, World (cwd w) (listing w) (files w)
              (console w ++ (f <$> l)) (ops w)).
Proof.
  intros Hbody. revert w.
  induction l as [|x l IH]; intros [c d fs out o]; simpl.
  - by rewrite app_nil_r.
  - rewrite M_bind_unfold, Hbody. simpl. rewrite IH. simpl.
    by rewrite <- app_assoc.
Qed.

(** ** The fragment engine *)

Section FragmentFacts.
Import Fragment.

(** A match at a position is a prefix of the text from the position. *)
Lemma match_here_prefix multiline r prev rest m :
  match_here multiline r prev rest = Some m → ∃ rest', rest = (m ++ rest')%list.
Proof.
  revert prev rest m.
  induction r as [|[c| | |] r IH]; intros prev rest m; simpl.
  - intros [= <-]. by exists rest.
  - destruct rest as [|d rest]; [done|].
    destruct (c =? d)%char; [|done].
    destruct (match_here multiline r (Some d) rest) as [m'|] eqn:Hm; [|done].
    intros [= <-]. destruct (IH _ _ _ Hm) as [rest' ->]. by exists rest'.
  - destruct rest as [|d rest]; [done|].
    destruct (d =? newline)%char; [done|].
    destruct (match_here multiline r (Some d) rest) as [m'|] eqn:Hm; [|done].
    intros [= <-]. destruct (IH _ _ _ Hm) as [rest' ->]. by exists rest'.
  - destruct prev as [d|]; [|by apply IH].
    destruct (multiline && (d =? newline)%char); [by apply IH | done].
  - destruct rest as [|d rest]; [by apply IH|].
    destruct ((d =? newline)%char && (multiline || bool_decide (rest = [])));
      [by apply IH | done].
Qed.

(** The scan cuts the text into pieces: the matches it reports are
    stretches of the text that follow one another without overlap, and the
    characters it keeps are the rest of the text. *)
Lemma scan_partition multiline r prev rest skip :
  unscan (scan multiline r prev rest skip) = drop skip rest.
Proof.
  revert prev skip.
  induction rest as [|c rest IH]; intros prev skip.
  - simpl. destruct skip; [|done].
    destruct (match_here multiline r prev []) as [m|] eqn:Hm; [|done].
    apply match_here_prefix in Hm as [rest' Hm].
    symmetry in Hm. apply app_eq_nil in Hm as [-> _]. done.
  - destruct skip as [|skip]; [|by apply IH].
    cbn [scan drop].
    destruct (match_here multiline r prev (c :: rest)) as [m|] eqn:Hm.
    + apply match_here_prefix in Hm as [rest' Hm].
      destruct m as [|d m]; cbn [length].
      * unfold unscan. simpl. f_equal. apply (IH (Some c) 0).
      * injection Hm as <- ->. unfold unscan. cbn [mbind list_bind].
        fold (unscan (scan multiline r (Some c) (m ++ rest') (length m))).
        rewrite IH, drop_app_length. done.
    + unfold unscan. simpl. f_equal. apply (IH (Some c) 0).
Qed.

Lemma scan_text multiline r s :
  text (unscan (scan multiline r None (chars s) 0)) = s.
Proof.
  rewrite scan_partition. simpl. apply string_of_list_ascii_of_string.
Qed.

End FragmentFacts.

(** ** The Text Transformer *)

Section TransformerFacts.
Context `{RegexEngine}.

(** The counts already collected are a prefix of the result. *)
Lemma apply_rules_loop_counts rules text counts :
  apply_rules_loop rules text counts
  = '(new_text, counts') ← apply_rules_loop rules text [];
    Ok (new_text, (counts ++ counts')%list).
Proof.
  revert text counts.
  induction rules as [|[pattern replacement] rules IH]; intros text counts.
  - simpl. by rewrite app_nil_r.
  - simpl. destruct (findall_multiline pattern text) as [found|e]; [|done].
    simpl. destruct (sub_multiline pattern replacement text) as [text'|e];
      [|done].
    simpl. rewrite (IH text' [length found]), (IH text' (counts ++ _)%list).
    destruct (apply_rules_loop rules text' []) as [[t cs]|e]; [|done].
    simpl. by rewrite <- app_assoc.
Qed.

(** One rule, then the others on the rewritten text. *)
Lemma apply_rules_cons pattern replacement rules text new_text counts :
  apply_rules_to_text text ((pattern, replacement) :: rules)
  = Ok (new_text, counts)
  ↔ ∃ found text' counts',
      findall_multiline pattern text = Ok found
      ∧ sub_multiline pattern replacement text = Ok text'
      ∧ apply_rules_to_text text' rules = Ok (new_text, counts')
      ∧ counts = length found :: counts'.
Proof.
  unfold apply_rules_to_text. simpl. split.
  - intros (found & Hfound & Hrest)%bind_Ok_inv.
    apply bind_Ok_inv in Hrest as (text' & Hsub & Hloop).
    rewrite apply_rules_loop_counts in Hloop.
    apply bind_Ok_inv in Hloop as ([t cs] & Hloop & [= <- <-]).
    by exists found, text', cs.
  - intros (found & text' & counts' & -> & -> & Hloop & ->). simpl.
    rewrite apply_rules_loop_counts, Hloop. done.
Qed.

(** C1. [apply_rules_to_text] returns [(new_text, counts)] exactly when
    there is a sequence of texts, one more than there are rules, that
    starts at the input text and ends at [new_text], such that for every
    rule [i], in the order of the list, [re.findall] in multiline mode on
    text [i] (the text as rewritten by the rules before [i]) succeeds
    and [counts[i]] is the number of matches it found, and text [i + 1] is
    the result of [re.sub] in multiline mode on text [i]; there is one
    count per rule. *)
Theorem apply_rules_sequential text rules new_text counts :
  apply_rules_to_text text rules = Ok (new_text, counts)
  ↔ ∃ texts : list string,
      length texts = S (length rules)
      ∧ texts !! 0 = Some text
      ∧ last texts = Some new_text
      ∧ length counts = length rules
      ∧ ∀ i pattern replacement,
          rules !! i = Some (pattern, replacement) →
          ∃ current found,
            texts !! i = Some current
            ∧ findall_multiline pattern current = Ok found
            ∧ counts !! i = Some (length found)
            ∧ ∃ next,
                texts !! S i = Some next
                ∧ sub_multiline pattern replacement current = Ok next.
Proof.
  revert text new_text counts.
  induction rules as [|[pattern replacement] rules IH];
    intros text new_text counts.
  - unfold apply_rules_to_text. simpl. split.
    + intros [= <- <-]. exists [text]. repeat split; try done.
    + intros (texts & Hlen & Hfirst & Hlast & Hcounts & _).
      destruct texts as [|t [|??]]; simplify_eq/=.
      by destruct counts.
  - rewrite apply_rules_cons. split.
    + intros (found & text' & counts' & Hfound & Hsub & Hrest & ->).
      apply IH in Hrest as (texts & Hlen & Hfirst & Hlast & Hcounts & Hall).
      exists (text :: texts). repeat split; simpl; try by f_equal.
      { destruct texts; simplify_eq/=. done. }
      intros [|i] p r Hi; simplify_eq/=.
      * exists text, found. repeat split; try done. by exists text'.
      * by apply Hall.
    + intros (texts & Hlen & Hfirst & Hlast & Hcounts & Hall).
      destruct texts as [|t texts]; simplify_eq/=.
      destruct counts as [|c counts]; simplify_eq/=.
      destruct (Hall 0 pattern replacement eq_refl)
        as (current & found & [= <-] & Hfound & [= ->] & text' & Hnext
            & Hsub).
      simpl in Hnext.
      exists found, text', counts. repeat split; try done.
      apply IH. exists texts. repeat split; try done.
      * destruct texts; simplify_eq/=. done.
      * intros i p r Hi. apply (Hall (S i) p r Hi).
Qed.

(** C9. With no rule the text is returned as it is, with no count. *)
Theorem apply_no_rules text :
  apply_rules_to_text text [] = Ok (text, []).
Proof. reflexivity. Qed.

(** *** More on the Text Transformer *)

Lemma apply_rules_loop_app rules1 rules2 text counts :
  apply_rules_loop (rules1 ++ rules2) text counts
  = '(text1, counts1) ← apply_rules_loop rules1 text counts;
    apply_rules_loop rules2 text1 counts1.
Proof.
  revert text counts.
  induction rules1 as [|[pattern replacement] rules1 IH];
    intros text counts; simpl; [done|].
  destruct (findall_multiline pattern text) as [found|e]; [|done].
  simpl. destruct (sub_multiline pattern replacement text) as [text'|e];
    [|done].
  simpl. apply IH.
Qed.

(** X1. Applying two rule lists one after the other is applying their
    concatenation: the second list works on the text the first one
    produced, and the counts are those of the first list followed by
    those of the second.  If the first list raises, so does the
    concatenation, with the same exception. *)
Theorem apply_rules_app text rules1 rules2 :
  apply_rules_to_text text (rules1 ++ rules2)
  = '(text1, counts1) ← apply_rules_to_text text rules1;
    '(text2, counts2) ← apply_rules_to_text text1 rules2;
    Ok (text2, (counts1 ++ counts2)%list).
Proof.
  unfold apply_rules_to_text. rewrite apply_rules_loop_app.
  destruct (apply_rules_loop rules1 text []) as [[text1 counts1]|e];
    [|done].
  simpl. apply apply_rules_loop_counts.
Qed.

(** A rule whose pattern does not compile keeps the loop from
    returning. *)
Lemma apply_rules_loop_not_Ok rules text counts pattern replacement res :
  (pattern, replacement) ∈ rules →
  re_compile pattern = None →
  apply_rules_loop rules text counts ≠ Ok res.
Proof.
  intros Hin Hinvalid. revert text counts.
  induction rules as [|[p r] rules IH]; intros text counts.
  { by apply elem_of_nil in Hin. }
  simpl. apply elem_of_cons in Hin as [[= <- <-]|Hin].
  - unfold findall_multiline. by rewrite Hinvalid.
  - destruct (findall_multiline p text) as [found|]; [|done].
    simpl. destruct (sub_multiline p r text) as [text'|]; [|done].
    simpl. by apply IH.
Qed.

(** X2. When a rule of the list has a pattern that does not compile,
    [apply_rules_to_text] does not return a text, whatever the text is
    (even when it is empty or an earlier rule has removed everything the
    pattern could match) and wherever the rule stands: it raises.  When
    the rules before that rule apply, the exception is the [re.error] of
    that pattern, raised by [re.findall]. *)
Theorem apply_rules_invalid_pattern text rules pattern replacement :
  (pattern, replacement) ∈ rules →
  re_compile pattern = None →
  (∀ new_text counts,
     apply_rules_to_text text rules ≠ Ok (new_text, counts))
  ∧ (∀ rules1 rules2 text1 counts1,
       rules = (rules1 ++ (pattern, replacement) :: rules2)%list →
       apply_rules_to_text text rules1 = Ok (text1, counts1) →
       apply_rules_to_text text rules = Raise ReError).
Proof.
  intros Hin Hinvalid. split.
  - intros new_text counts. by eapply apply_rules_loop_not_Ok.
  - intros rules1 rules2 text1 counts1 -> Hrules1.
    unfold apply_rules_to_text in *.
    rewrite apply_rules_loop_app, Hrules1. simpl.
    unfold findall_multiline. by rewrite Hinvalid.
Qed.

(** One count per rule. *)
Lemma apply_rules_counts_length text rules new_text counts :
  apply_rules_to_text text rules = Ok (new_text, counts) →
  length counts = length rules.
Proof.
  revert text new_text counts.
  induction rules as [|[pattern replacement] rules IH];
    intros text new_text counts.
  - by intros [= <- <-].
  - intros (found & text' & counts' & _ & _ & Hrest & ->)%apply_rules_cons.
    simpl. f_equal. by eapply IH.
Qed.

End TransformerFacts.

(** ** The RuleSet Loader *)

Section LoaderFacts.

(** Induction on a list three elements at a time. *)
Lemma list_ind3 {A} (P : list A → Prop) :
  P [] → (∀ a, P [a]) → (∀ a b, P [a; b]) →
  (∀ a b c l, P l → P (a :: b :: c :: l)) →
  ∀ l, P l.
Proof.
  intros H0 H1 H2 H3.
  assert (∀ l, P l ∧ (∀ a, P (a :: l)) ∧ (∀ a b, P (a :: b :: l))) as Hall.
  { induction l as [|x l (IH0 & IH1 & IH2)]; [by auto|].
    repeat split; [apply IH1 | intros; apply IH2 | intros; by apply H3]. }
  intros l. apply Hall.
Qed.

Lemma range_0_3 (n : nat) :
  range 0 n 3 = (λ k, k * 3) <$> seq 0 ((n + 2) `div` 3).
Proof. unfold range. simpl. by rewrite Nat.sub_0_r. Qed.

(** The loop from window [j] on, when [3 * j] lines came before [rest]. *)
Lemma load_rules_loop_windows (pre rest : list string) (j : nat) acc :
  length pre = j * 3 →
  load_rules_loop (pre ++ rest)
    ((λ k, k * 3) <$> seq j ((length rest + 2) `div` 3)) acc
  = Ok (acc ++ omap rule_of_window (windows3 rest))%list.
Proof.
  revert pre j acc.
  induction rest as [|a|a b|a b c rest IH] using list_ind3;
    intros pre j acc Hpre.
  - simpl. by rewrite app_nil_r.
  - change ((length [a] + 2) `div` 3) with 1. simpl.
    unfold load_rules_step. rewrite length_app, Hpre. simpl.
    rewrite bool_decide_false by lia. simpl. by rewrite app_nil_r.
  - change ((length [a; b] + 2) `div` 3) with 1. simpl.
    unfold load_rules_step. rewrite length_app, Hpre. simpl.
    rewrite bool_decide_true by lia.
    rewrite !lookup_app_r by lia.
    replace (j * 3 - length pre) with 0 by lia.
    replace (j * 3 + 1 - length pre) with 1 by lia. simpl.
    destruct (nonempty a); simpl; [done | by rewrite app_nil_r].
  - replace ((length (a :: b :: c :: rest) + 2) `div` 3)
      with (S ((length rest + 2) `div` 3)).
    2:{ replace (length (a :: b :: c :: rest) + 2)
          with (length rest + 2 + 1 * 3) by (simpl; lia).
        rewrite Nat.div_add by lia. lia. }
    simpl seq. rewrite fmap_cons.
    cbn [load_rules_loop]. unfold load_rules_step at 1.
    rewrite length_app, Hpre. simpl length.
    rewrite bool_decide_true by lia.
    rewrite !lookup_app_r by lia.
    replace (j * 3 - length pre) with 0 by lia.
    replace (j * 3 + 1 - length pre) with 1 by lia. simpl.
    specialize (IH (pre ++ [a; b; c])%list (S j)).
    rewrite <- app_assoc in IH. simpl in IH.
    destruct (nonempty a); simpl.
    + rewrite IH by (rewrite length_app; simpl; lia).
      by rewrite <- app_assoc.
    + rewrite IH by (rewrite length_app; simpl; lia). done.
Qed.

Lemma rules_of_lines_windows (lines : list string) :
  rules_of_lines lines = Ok (omap rule_of_window (windows3 lines)).
Proof.
  unfold rules_of_lines. rewrite range_0_3.
  by apply (load_rules_loop_windows [] lines 0 []).
Qed.

(** The third line of a window plays no part. *)
Lemma windows3_ignore_third (lines lines' : list string) :
  length lines = length lines' →
  (∀ k, lines !! (k * 3) = lines' !! (k * 3)
        ∧ lines !! (k * 3 + 1) = lines' !! (k * 3 + 1)) →
  omap rule_of_window (windows3 lines)
  = omap rule_of_window (windows3 lines').
Proof.
  revert lines'.
  induction lines as [|a|a b|a b c lines IH] using list_ind3;
    intros lines' Hlen Hsame.
  - by destruct lines'.
  - destruct lines' as [|a' [|??]]; simplify_eq/=. done.
  - destruct lines' as [|a' [|b' [|??]]]; simplify_eq/=.
    by destruct (Hsame 0) as [[= ->] [= ->]].
  - destruct lines' as [|a' [|b' [|c' lines']]]; simplify_eq/=.
    destruct (Hsame 0) as [[= ->] [= ->]].
    rewrite (IH lines'); [done | done |].
    intros k. apply (Hsame (S k)).
Qed.

(** [N] groups, the last one with or without its third line, all with a
    pattern: [N] rules, rule [k] from lines [3k] and [3k + 1]. *)
Lemma windows3_groups (N : nat) (lines : list string) :
  length lines = N * 3 ∨ S (length lines) = N * 3 →
  (∀ k, k < N → ∃ p, lines !! (k * 3) = Some p ∧ nonempty p = true) →
  length (omap rule_of_window (windows3 lines)) = N
  ∧ ∀ k, k < N →
      ∃ p r, lines !! (k * 3) = Some p ∧ lines !! (k * 3 + 1) = Some r
             ∧ omap rule_of_window (windows3 lines) !! k = Some (p, r).
Proof.
  revert N.
  induction lines as [|a|a b|a b c lines IH] using list_ind3;
    intros N Hlen Hpat.
  - destruct N; [|simpl in Hlen; lia]. split; [done | lia].
  - destruct N; simpl in Hlen; lia.
  - destruct N as [|[|N]]; simpl in Hlen; try lia.
    destruct (Hpat 0) as (p & [= <-] & Ha); [lia|].
    simpl. rewrite Ha. split; [done|].
    intros [|k] Hk; [|lia]. by exists a, b.
  - destruct N as [|N]; [simpl in Hlen; lia|].
    destruct (Hpat 0) as (p & [= <-] & Ha); [lia|].
    destruct (IH N) as [IHlen IHk].
    { simpl in Hlen. lia. }
    { intros k Hk. apply (Hpat (S k)). lia. }
    change (windows3 (a :: b :: c :: lines))
      with ([a; b; c] :: windows3 lines).
    cbn [omap list_omap rule_of_window]. rewrite Ha.
    split; [simpl; by rewrite IHlen|].
    intros [|k] Hk; [by exists a, b|].
    apply (IHk k). lia.
Qed.

(** *** More on the RuleSet Loader *)

Section LoaderRuns.
Context `{Platform}.

Lemma load_rules_from_file_missing path w :
  files w !! path = None →
  load_rules_from_file path w = (Raise FileNotFoundError, w).
Proof.
  intros Hfile. unfold load_rules_from_file, Eff.isfile.
  rewrite M_bind_unfold, Hfile.
  rewrite bool_decide_false by (by intros [? ?]). done.
Qed.

Lemma load_rules_from_file_undecodable path w b :
  files w !! path = Some b → decode_text b = None →
  load_rules_from_file path w
  = (Raise UnicodeDecodeError, log_op (OpRead path) w).
Proof.
  intros Hfile Hdecode. unfold load_rules_from_file, Eff.isfile, read_text.
  rewrite M_bind_unfold, Hfile. rewrite bool_decide_true by done. simpl.
  rewrite M_bind_unfold, Hfile, Hdecode. done.
Qed.

Lemma load_rules_from_file_run path w b text :
  files w !! path = Some b → decode_text b = Some text →
  load_rules_from_file path w
  = (Ok (omap rule_of_window
           (windows3 (rstrip_newline <$> readlines text))),
     log_op (OpRead path) w).
Proof.
  intros Hfile Hdecode.
  unfold load_rules_from_file, Eff.isfile, read_text, Eff.lift.
  rewrite M_bind_unfold, Hfile. rewrite bool_decide_true by done. simpl.
  rewrite M_bind_unfold, Hfile, Hdecode. by rewrite rules_of_lines_windows.
Qed.

(** The lines of a text, stripped, have no newline left. *)
Lemma rstrip_newline_id s :
  has_char Fragment.newline s = false → rstrip_newline s = s.
Proof.
  induction s as [|c s IH]; simpl; [done|].
  intros [Hc Hs]%orb_false_iff. by rewrite Hc, IH.
Qed.

Lemma rstrip_newline_line s :
  has_char Fragment.newline s = false →
  rstrip_newline (s +:+ String Fragment.newline EmptyString) = s.
Proof.
  induction s as [|c s IH]; [done|].
  intros [Hc Hs]%orb_false_iff.
  change (String c s +:+ String Fragment.newline EmptyString)
    with (String c (s +:+ String Fragment.newline EmptyString)).
  simpl. by rewrite Hc, IH.
Qed.

Lemma readlines_shape s :
  Forall (λ l, ∃ body,
            has_char Fragment.newline body = false
            ∧ (l = body ∨ l = body +:+ String Fragment.newline EmptyString))
    (readlines s).
Proof.
  induction s as [|c s IH]; simpl; [constructor|].
  destruct (c =? Fragment.newline)%char eqn:Hc.
  - constructor; [|done]. exists EmptyString. split; [done|].
    right. by apply Ascii.eqb_eq in Hc as ->.
  - destruct (readlines s) as [|h t].
    + repeat constructor. exists (String c EmptyString). simpl.
      rewrite Hc. by split; [|left].
    + apply Forall_cons in IH as [(body & Hbody & Hh) IH].
      constructor; [|done]. exists (String c body). simpl.
      rewrite Hc, Hbody. split; [done|].
      destruct Hh as [->| ->]; [by left | by right].
Qed.

Lemma stripped_lines_no_newline s :
  Forall (λ l, has_char Fragment.newline l = false)
    (rstrip_newline <$> readlines s).
Proof.
  apply Forall_fmap. eapply Forall_impl; [apply readlines_shape|].
  intros l (body & Hbody & [->| ->]); simpl.
  - by rewrite rstrip_newline_id.
  - by rewrite rstrip_newline_line.
Qed.

End LoaderRuns.

(** Every rule comes from two lines, and its pattern is not empty. *)
Lemma rules_of_windows_elem (lines : list string) p r :
  (p, r) ∈ omap rule_of_window (windows3 lines) →
  nonempty p = true ∧ p ∈ lines ∧ r ∈ lines.
Proof.
  induction lines as [|a|a b|a b c lines IH] using list_ind3.
  - by intros ?%elem_of_nil.
  - by intros ?%elem_of_nil.
  - simpl. destruct (nonempty a) eqn:Ha; simpl.
    + intros [= -> ->]%list_elem_of_singleton.
      repeat split; [done | |]; repeat constructor.
    + by intros ?%elem_of_nil.
  - change (windows3 (a :: b :: c :: lines))
      with ([a; b; c] :: windows3 lines).
    cbn [omap list_omap rule_of_window].
    assert ((p, r) ∈ omap rule_of_window (windows3 lines) →
            nonempty p = true
            ∧ p ∈ a :: b :: c :: lines ∧ r ∈ a :: b :: c :: lines) as Hrest.
    { intros Hin. destruct (IH Hin) as (? & ? & ?).
      repeat split; [done | |]; by repeat apply elem_of_cons, or_intror. }
    destruct (nonempty a) eqn:Ha; [|done].
    intros [[= -> ->]|Hin]%elem_of_cons; [|by apply Hrest].
    repeat split; [done | |]; repeat constructor.
Qed.

(** At most one rule per window of at least two lines. *)
Lemma rules_of_windows_length (lines : list string) :
  length (omap rule_of_window (windows3 lines)) ≤ (length lines + 1) `div` 3.
Proof.
  induction lines as [|a|a b|a b c lines IH] using list_ind3.
  - done.
  - done.
  - change ((length [a; b] + 1) `div` 3) with 1.
    simpl. destruct (nonempty a); simpl; lia.
  - change (windows3 (a :: b :: c :: lines))
      with ([a; b; c] :: windows3 lines).
    cbn [omap list_omap rule_of_window].
    replace (length (a :: b :: c :: lines) + 1)
      with (length lines + 1 + 1 * 3) by (simpl; lia).
    rewrite Nat.div_add by lia.
    destruct (nonempty a); cbn [length]; lia.
Qed.

(** X3. The rules loaded from a file that exists and decodes are well
    formed: no pattern is empty, no pattern and no replacement contains a
    newline, and a file of [n] lines gives at most [(n + 1) / 3] rules (so
    an empty file, or a file of one line, gives none). *)
Theorem load_rules_well_formed `{Platform} path w b text :
  files w !! path = Some b →
  decode_text b = Some text →
  ∃ rules,
    (load_rules_from_file path w).1 = Ok rules
    ∧ length rules ≤ (length (readlines text) + 1) `div` 3
    ∧ ∀ pattern replacement,
        (pattern, replacement) ∈ rules →
        nonempty pattern = true
        ∧ has_char Fragment.newline pattern = false
        ∧ has_char Fragment.newline replacement = false.
Proof.
  intros Hfile Hdecode.
  rewrite (load_rules_from_file_run _ _ _ _ Hfile Hdecode).
  eexists. split; [done|]. split.
  - etrans; [apply rules_of_windows_length|]. by rewrite length_fmap.
  - intros pattern replacement (Hne & Hp & Hr)%rules_of_windows_elem.
    pose proof (stripped_lines_no_newline text) as Hlines.
    rewrite Forall_forall in Hlines. auto.
Qed.

(** X4. [load_rules_from_file] has three outcomes: [FileNotFoundError],
    with nothing read, when the path is not a file; [UnicodeDecodeError]
    when the file does not decode; a list of rules otherwise.  It never
    raises [IndexError]: the test [i + 1 < len(lines)] guards both index
    reads.  In the three cases it prints nothing and leaves every file as
    it was. *)
Theorem load_rules_outcomes `{Platform} path w :
  files (load_rules_from_file path w).2 = files w
  ∧ console (load_rules_from_file path w).2 = console w
  ∧ match files w !! path with
    | None => load_rules_from_file path w = (Raise FileNotFoundError, w)
    | Some b =>
        match decode_text b with
        | None =>
            load_rules_from_file path w
            = (Raise UnicodeDecodeError, log_op (OpRead path) w)
        | Some _ =>
            ∃ rules,
              load_rules_from_file path w
              = (Ok rules, log_op (OpRead path) w)
        end
    end.
Proof.
  destruct (files w !! path) as [b|] eqn:Hfile.
  2:{ by rewrite load_rules_from_file_missing. }
  destruct (decode_text b) as [text|] eqn:Hdecode.
  - rewrite (load_rules_from_file_run _ _ _ _ Hfile Hdecode).
    repeat split. by eexists.
  - by rewrite (load_rules_from_file_undecodable _ _ _ Hfile Hdecode).
Qed.

(** *** Round trip through the documented format *)

Section LoaderRoundTrip.
Context `{Platform}.

Lemma readlines_line s rest :
  has_char Fragment.newline s = false →
  readlines (s +:+ String Fragment.newline rest)
  = (s +:+ String Fragment.newline EmptyString) :: readlines rest.
Proof.
  induction s as [|c s IH]; intros Hs.
  - done.
  - apply orb_false_iff in Hs as [Hc Hs].
    change (String c s +:+ String Fragment.newline rest)
      with (String c (s +:+ String Fragment.newline rest)).
    cbn [readlines]. by rewrite Hc, IH.
Qed.

Lemma String_append_assoc (a b c : string) :
  (a +:+ b) +:+ c = a +:+ (b +:+ c).
Proof.
  induction a as [|x a IH]; [done|].
  change (String x a +:+ b) with (String x (a +:+ b)).
  change (String x (a +:+ b) +:+ c) with (String x ((a +:+ b) +:+ c)).
  change (String x a +:+ (b +:+ c)) with (String x (a +:+ (b +:+ c))).
  by f_equal.
Qed.

Lemma readlines_format_rules rules :
  Forall (λ rule, has_char Fragment.newline rule.1 = false
                  ∧ has_char Fragment.newline rule.2 = false) rules →
  rstrip_newline <$> readlines (format_rules rules)
  = rules ≫= λ rule, [rule.1; rule.2; EmptyString].
Proof.
  induction 1 as [|[pattern replacement] rules [Hp Hr] _ IH]; [done|].
  simpl in Hp, Hr. cbn [format_rules]. unfold format_rule. simpl fst.
  simpl snd.
  rewrite String_append_assoc.
  change (String Fragment.newline ?x +:+ ?y)
    with (String Fragment.newline (x +:+ y)).
  rewrite readlines_line by done.
  rewrite String_append_assoc.
  change (String Fragment.newline ?x +:+ ?y)
    with (String Fragment.newline (x +:+ y)).
  rewrite readlines_line by done.
  change (String Fragment.newline EmptyString +:+ format_rules rules)
    with (EmptyString +:+ String Fragment.newline (format_rules rules)).
  rewrite (readlines_line EmptyString) by done.
  rewrite !fmap_cons, IH.
  rewrite !rstrip_newline_line by done. done.
Qed.

Lemma rules_of_formatted_lines (rules : list (string * string)) :
  Forall (λ rule, nonempty rule.1 = true) rules →
  omap rule_of_window
    (windows3 (rules ≫= λ rule, [rule.1; rule.2; EmptyString]))
  = rules.
Proof.
  induction 1 as [|[pattern replacement] rules Hp _ IH]; [done|].
  simpl in Hp. rewrite bind_cons. cbn [fst snd app].
  change (windows3 (pattern :: replacement :: EmptyString :: ?l))
    with ([pattern; replacement; EmptyString] :: windows3 l).
  cbn [omap list_omap rule_of_window]. by rewrite Hp, IH.
Qed.

(** X18. A rules file written as the docstring of the script says, every
    rule as its pattern line, its replacement line and a blank line, loads
    to exactly the rules it was written from, in the same order, when no
    pattern is empty and no pattern and no replacement contains a
    newline. *)
Theorem load_formatted_rules path w b rules :
  Forall (λ rule, nonempty rule.1 = true
                  ∧ has_char Fragment.newline rule.1 = false
                  ∧ has_char Fragment.newline rule.2 = false) rules →
  files w !! path = Some b →
  decode_text b = Some (format_rules rules) →
  load_rules_from_file path w = (Ok rules, log_op (OpRead path) w).
Proof.
  intros Hrules Hfile Hdecode.
  rewrite (load_rules_from_file_run _ _ _ _ Hfile Hdecode).
  rewrite readlines_format_rules.
  2:{ eapply Forall_impl; [done|]. by intros rule (_ & ? & ?). }
  rewrite rules_of_formatted_lines; [done|].
  eapply Forall_impl; [done|]. by intros rule (? & _).
Qed.

End LoaderRoundTrip.

(** *** The lines of a file *)

Section LoaderFiles.
Context `{Platform}.

Lemma readlines_no_newline s :
  nonempty s = true → has_char Fragment.newline s = false →
  readlines s = [s].
Proof.
  induction s as [|c s IH]; [done|].
  intros _ [Hc Hs]%orb_false_iff. cbn [readlines]. rewrite Hc.
  destruct s as [|d s]; [done|]. by rewrite IH.
Qed.

(** A file of newline-ended lines is read back as these lines. *)
Lemma stripped_lines_unlines ls :
  Forall (λ l, has_char Fragment.newline l = false) ls →
  rstrip_newline <$> readlines (unlines ls) = ls.
Proof.
  induction 1 as [|l ls Hl _ IH]; [done|].
  cbn [unlines]. rewrite readlines_line by done.
  by rewrite fmap_cons, IH, rstrip_newline_line.
Qed.

(** ... also when the last line has no newline. *)
Lemma stripped_lines_unlines_last ls last :
  Forall (λ l, has_char Fragment.newline l = false) ls →
  has_char Fragment.newline last = false →
  nonempty last = true →
  rstrip_newline <$> readlines (unlines ls +:+ last) = (ls ++ [last])%list.
Proof.
  intros Hls Hlast Hne.
  induction Hls as [|l ls Hl _ IH].
  - change (unlines [] +:+ last) with last.
    rewrite readlines_no_newline by done. simpl.
    by rewrite rstrip_newline_id.
  - cbn [unlines]. rewrite String_append_assoc.
    change (String Fragment.newline (unlines ls) +:+ last)
      with (String Fragment.newline (unlines ls +:+ last)).
    rewrite readlines_line by done.
    by rewrite fmap_cons, IH, rstrip_newline_line.
Qed.

End LoaderFiles.

(** C3. The stripped lines of a rules file are cut into consecutive
    windows of three lines from index 0, and every window with at least two
    lines gives the rule (line 0, line 1) unless line 0 is empty; a last
    window of one line gives nothing; the rules come in file order.  The
    lines at indices [3k + 2] play no part.  A file of [N] groups whose
    patterns are not empty, the last group with or without its third
    line, gives [N] rules, rule [k] from lines [3k] and [3k + 1].

    The lines are those of the file: a file that holds the lines [ls],
    every one ended by a newline, is loaded as the windows of [ls], and a
    file whose last line [last] has no newline as the windows of
    [ls ++ [last]]; so a file of [N] such groups gives [N] rules.  On the
    file [more_rules_text] the loader keeps the first group, drops the
    second, whose pattern line is blank, and keeps the third, which has
    two lines and no newline at its end. *)
Theorem load_rules_windows `{Platform} :
  (∀ path w b text,
     files w !! path = Some b → decode_text b = Some text →
     load_rules_from_file path w
     = (Ok (omap rule_of_window
              (windows3 (rstrip_newline <$> readlines text))),
        log_op (OpRead path) w))
  ∧ (∀ lines,
       rules_of_lines lines = Ok (omap rule_of_window (windows3 lines)))
  ∧ (∀ lines lines',
       length lines = length lines' →
       (∀ k, lines !! (k * 3) = lines' !! (k * 3)
             ∧ lines !! (k * 3 + 1) = lines' !! (k * 3 + 1)) →
       rules_of_lines lines = rules_of_lines lines')
  ∧ (∀ N lines,
       length lines = N * 3 ∨ S (length lines) = N * 3 →
       (∀ k, k < N → ∃ p, lines !! (k * 3) = Some p ∧ nonempty p = true) →
       ∃ rules,
         rules_of_lines lines = Ok rules
         ∧ length rules = N
         ∧ ∀ k, k < N →
             ∃ p r, lines !! (k * 3) = Some p
                    ∧ lines !! (k * 3 + 1) = Some r
                    ∧ rules !! k = Some (p, r))
  ∧ (∀ path w b ls,
       Forall (λ l, has_char Fragment.newline l = false) ls →
       files w !! path = Some b →
       decode_text b = Some (unlines ls) →
       load_rules_from_file path w
       = (Ok (omap rule_of_window (windows3 ls)), log_op (OpRead path) w))
  ∧ (∀ path w b ls last,
       Forall (λ l, has_char Fragment.newline l = false) ls →
       has_char Fragment.newline last = false →
       nonempty last = true →
       files w !! path = Some b →
       decode_text b = Some (unlines ls +:+ last) →
       load_rules_from_file path w
       = (Ok (omap rule_of_window (windows3 (ls ++ [last]))),
          log_op (OpRead path) w))
  ∧ (∀ path w b N ls,
       Forall (λ l, has_char Fragment.newline l = false) ls →
       length ls = N * 3 →
       (∀ k, k < N → ∃ p, ls !! (k * 3) = Some p ∧ nonempty p = true) →
       files w !! path = Some b →
       (decode_text b = Some (unlines ls)
        ∨ decode_text b = Some (unlines (take (N * 3 - 1) ls))) →
       ∃ rules,
         load_rules_from_file path w = (Ok rules, log_op (OpRead path) w)
         ∧ length rules = N
         ∧ ∀ k, k < N →
             ∃ p r, ls !! (k * 3) = Some p
                    ∧ ls !! (k * 3 + 1) = Some r
                    ∧ rules !! k = Some (p, r))
  ∧ @load_rules_from_file Posix.platform "/r/more.rules"
      Examples.more_rules_world
    = (Ok [("foo", "bar"); ("baz", "qux")],
       log_op (OpRead "/r/more.rules") Examples.more_rules_world)
  ∧ @load_rules_from_file Posix.platform "/r/rules.txt" Examples.foo_world
    = (Ok [("foo", "bar")],
       log_op (OpRead "/r/rules.txt") Examples.foo_world).
Proof.
  split; [|split; [|split; [|split; [|split; [|split; [|split;
    [|split]]]]]]].
  - intros path w b text Hfile Hdecode.
    unfold load_rules_from_file, Eff.isfile, read_text, Eff.lift.
    unfold mbind, M_bind. rewrite Hfile.
    rewrite bool_decide_true by done. simpl.
    rewrite Hfile, Hdecode. by rewrite rules_of_lines_windows.
  - apply rules_of_lines_windows.
  - intros lines lines' Hlen Hsame. rewrite !rules_of_lines_windows.
    f_equal. by apply windows3_ignore_third.
  - intros N lines Hlen Hpat.
    destruct (windows3_groups N lines Hlen Hpat) as [HN Hk].
    eexists. split; [apply rules_of_lines_windows | done].
  - intros path w b ls Hls Hfile Hdecode.
    rewrite (load_rules_from_file_run _ _ _ _ Hfile Hdecode).
    by rewrite stripped_lines_unlines.
  - intros path w b ls last Hls Hlast Hne Hfile Hdecode.
    rewrite (load_rules_from_file_run _ _ _ _ Hfile Hdecode).
    by rewrite stripped_lines_unlines_last.
  - intros path w b N ls Hls Hlen Hpat Hfile [Hdecode|Hdecode].
    + rewrite (load_rules_from_file_run _ _ _ _ Hfile Hdecode).
      rewrite stripped_lines_unlines by done.
      destruct (windows3_groups N ls (or_introl Hlen) Hpat) as [HN Hk].
      by eexists.
    + rewrite (load_rules_from_file_run _ _ _ _ Hfile Hdecode).
      rewrite stripped_lines_unlines by (by apply Forall_take).
      destruct N as [|N]; [by destruct ls; eexists; repeat split; lia|].
      assert (∀ k, k < S N →
                take (S N * 3 - 1) ls !! (k * 3) = ls !! (k * 3)
                ∧ take (S N * 3 - 1) ls !! (k * 3 + 1) = ls !! (k * 3 + 1))
        as Hsame.
      { intros k Hk. split; apply lookup_take_lt; lia. }
      destruct (windows3_groups (S N) (take (S N * 3 - 1) ls)) as [HN Hk].
      { right. rewrite length_take. lia. }
      { intros k Hk. destruct (Hsame k Hk) as [-> _]. by apply Hpat. }
      eexists. split; [done|]. split; [done|].
      intros k Hlt. destruct (Hk k Hlt) as (p & r & Hp & Hr & Hrule).
      destruct (Hsame k Hlt) as [Hp' Hr'].
      exists p, r. by rewrite <- Hp', <- Hr'.
  - vm_compute. reflexivity.
  - vm_compute. reflexivity.
Qed.

End LoaderFacts.

(** ** The File Processor *)

Section ProcessorFacts.
Context `{RegexEngine} `{Platform}.

(** A run that reads [text] and rewrites it into [new_text]. *)
Lemma process_file_run rules file_path overwrite dry_run w b text
    new_text counts :
  files w !! file_path = Some b →
  decode_text b = Some text →
  apply_rules_to_text text rules = Ok (new_text, counts) →
  let changed := bool_decide (new_text ≠ text) in
  process_file rules file_path overwrite dry_run w
  = (Ok changed,
     World (cwd w) (listing w)
       (if changed && negb dry_run then
          <[file_path := encode_text new_text]>
            (if overwrite then files w
             else <[file_path +:+ ".backup" := b]> (files w))
        else files w)
       (console w
        ++ process_console rules counts file_path changed overwrite dry_run)
       (ops w ++ OpRead file_path
               :: process_ops file_path changed overwrite dry_run)).
Proof.
  intros Hfile Hdecode Happly changed. subst changed.
  destruct w as [c d fs out o]. simpl in *.
  unfold process_file. rewrite M_bind_unfold.
  unfold read_text. simpl. rewrite Hfile, Hdecode.
  rewrite M_bind_unfold. unfold Eff.lift. rewrite Happly.
  rewrite M_bind_unfold. unfold Eff.print at 1. simpl.
  rewrite M_bind_unfold.
  rewrite (for_each_print _ _
    (λ '(idx, ((pattern, replacement), cnt)),
       RuleReport idx pattern replacement cnt))
    by (by intros [idx [[pattern replacement] cnt]]).
  unfold process_console, process_ops, report_lines, enumerate_from.
  simpl. case_bool_decide as Hchanged; simpl.
  - destruct dry_run; simpl.
    + run_M. by normalise_lists.
    + destruct overwrite; simpl.
      * run_M. by normalise_lists.
      * unfold backup_file, copy2. run_M. rewrite Hfile. run_M.
        by normalise_lists.
  - run_M. by normalise_lists.
Qed.

(** A run that cannot read the file or cannot apply the rules raises,
    with at most the read done. *)
Lemma process_file_raises rules file_path overwrite dry_run w :
  match files w !! file_path with
  | None =>
      process_file rules file_path overwrite dry_run w
      = (Raise FileNotFoundError, w)
  | Some b =>
      match decode_text b with
      | None =>
          process_file rules file_path overwrite dry_run w
          = (Raise UnicodeDecodeError, log_op (OpRead file_path) w)
      | Some text =>
          ∀ e, apply_rules_to_text text rules = Raise e →
               process_file rules file_path overwrite dry_run w
               = (Raise e, log_op (OpRead file_path) w)
      end
  end.
Proof.
  unfold process_file. rewrite M_bind_unfold. unfold read_text.
  destruct (files w !! file_path) as [b|]; [|done].
  destruct (decode_text b) as [text|]; [|done].
  intros e He. rewrite M_bind_unfold. unfold Eff.lift. by rewrite He.
Qed.

(** The backup path is never the path itself. *)
Lemma append_nonempty_ne (s t : string) : nonempty t = true → s +:+ t ≠ s.
Proof.
  intros Ht.
  induction s as [|c s IH]; simpl; [by destruct t | by intros [= ?]].
Qed.

Lemma process_file_new_ops rules file_path overwrite dry_run w :
  match files w !! file_path with
  | None => new_ops w (process_file rules file_path overwrite dry_run w) = []
  | Some b =>
      match decode_text b ≫= λ text,
              match apply_rules_to_text text rules with
              | Ok (new_text, _) => Some (bool_decide (new_text ≠ text))
              | Raise _ => None
              end with
      | None =>
          new_ops w (process_file rules file_path overwrite dry_run w)
          = [OpRead file_path]
      | Some changed =>
          new_ops w (process_file rules file_path overwrite dry_run w)
          = OpRead file_path
            :: process_ops file_path changed overwrite dry_run
      end
  end.
Proof.
  pose proof (process_file_raises rules file_path overwrite dry_run w)
    as Hraises.
  unfold new_ops.
  destruct (files w !! file_path) as [b|] eqn:Hfile.
  2:{ rewrite Hraises. simpl. apply drop_all. }
  destruct (decode_text b) as [text|] eqn:Hdecode; simpl.
  2:{ rewrite Hraises. simpl. apply drop_app_length. }
  destruct (apply_rules_to_text text rules) as [[new_text counts]|e]
    eqn:Happly.
  - rewrite (process_file_run _ _ _ _ _ _ _ _ _ Hfile Hdecode Happly).
    simpl. apply drop_app_length.
  - rewrite (Hraises e eq_refl). simpl. apply drop_app_length.
Qed.

Lemma copy_in_process_ops file_path changed overwrite dry_run src dst :
  OpCopy src dst ∈ process_ops file_path changed overwrite dry_run →
  changed = true ∧ overwrite = false ∧ dry_run = false
  ∧ src = file_path ∧ dst = file_path +:+ ".backup".
Proof.
  unfold process_ops.
  destruct changed, overwrite, dry_run; simpl; intros Hin;
    repeat (apply elem_of_cons in Hin as [Hin|Hin]);
    try (by apply elem_of_nil in Hin); try discriminate.
  by injection Hin as -> ->.
Qed.

(** C4. When the rewritten text differs from the text of the file, a run
    with neither [overwrite] nor [dry_run] reads the file, copies it to
    the path with [.backup] appended, writes the new text to the path, in
    this order, and returns [True]; afterwards the backup holds the bytes
    the file had before the run, the file holds the new text, and no other
    file has changed.  For all flags, a run copies a file only if both
    flags are off and the text has changed, and then it copies the target
    to its backup path. *)
Theorem process_file_backup_then_write rules file_path w :
  (∀ b text new_text counts,
     files w !! file_path = Some b →
     decode_text b = Some text →
     apply_rules_to_text text rules = Ok (new_text, counts) →
     new_text ≠ text →
     ∃ w',
       process_file rules file_path false false w = (Ok true, w')
       ∧ ops w' = (ops w ++ [OpRead file_path;
                             OpCopy file_path (file_path +:+ ".backup");
                             OpWrite file_path])%list
       ∧ files w' !! (file_path +:+ ".backup") = Some b
       ∧ files w' !! file_path = Some (encode_text new_text)
       ∧ ∀ p, p ≠ file_path → p ≠ file_path +:+ ".backup" →
              files w' !! p = files w !! p)
  ∧ (∀ overwrite dry_run src dst,
       OpCopy src dst
         ∈ new_ops w (process_file rules file_path overwrite dry_run w) →
       overwrite = false ∧ dry_run = false
       ∧ src = file_path ∧ dst = file_path +:+ ".backup"
       ∧ ∃ b text new_text counts,
           files w !! file_path = Some b
           ∧ decode_text b = Some text
           ∧ apply_rules_to_text text rules = Ok (new_text, counts)
           ∧ new_text ≠ text).
Proof.
  split.
  - intros b text new_text counts Hfile Hdecode Happly Hchanged.
    rewrite (process_file_run _ _ _ _ _ _ _ _ _ Hfile Hdecode Happly).
    rewrite bool_decide_true by done. simpl.
    eexists. split; [done|]. simpl.
    pose proof (append_nonempty_ne file_path ".backup" eq_refl) as Hne.
    repeat split.
    + by rewrite lookup_insert_ne, lookup_insert_eq.
    + by rewrite lookup_insert_eq.
    + intros p Hp Hp'. by rewrite !lookup_insert_ne.
  - intros overwrite dry_run src dst Hcopy.
    pose proof (process_file_new_ops rules file_path overwrite dry_run w)
      as Hops.
    destruct (files w !! file_path) as [b|] eqn:Hfile.
    2:{ rewrite Hops in Hcopy. by apply elem_of_nil in Hcopy. }
    destruct (decode_text b) as [text|] eqn:Hdecode; simpl in Hops.
    2:{ rewrite Hops in Hcopy.
        by apply list_elem_of_singleton in Hcopy. }
    destruct (apply_rules_to_text text rules) as [[new_text counts]|e]
      eqn:Happly.
    2:{ rewrite Hops in Hcopy.
        by apply list_elem_of_singleton in Hcopy. }
    rewrite Hops in Hcopy. apply elem_of_cons in Hcopy as [[=]|Hcopy].
    apply copy_in_process_ops in Hcopy as (Hchanged & -> & -> & -> & ->).
    apply bool_decide_eq_true in Hchanged.
    repeat split; try done. by exists b, text, new_text, counts.
Qed.

(** C5. A dry run, whatever the rules, the target and the [overwrite]
    flag, leaves every file as it was; the only file operation it can add
    is the read of the target (no copy and no write); and when the file is
    read and the rules apply, it returns whether the rewritten text
    differs from the text of the file. *)
Theorem process_file_dry_run rules file_path overwrite w :
  files (process_file rules file_path overwrite true w).2 = files w
  ∧ (∀ op, op ∈ new_ops w (process_file rules file_path overwrite true w) →
           op = OpRead file_path)
  ∧ (∀ b text new_text counts,
       files w !! file_path = Some b →
       decode_text b = Some text →
       apply_rules_to_text text rules = Ok (new_text, counts) →
       (process_file rules file_path overwrite true w).1
       = Ok (bool_decide (new_text ≠ text))).
Proof.
  pose proof (process_file_raises rules file_path overwrite true w)
    as Hraises.
  pose proof (process_file_new_ops rules file_path overwrite true w) as Hops.
  destruct (files w !! file_path) as [b|] eqn:Hfile.
  2:{ rewrite Hops, Hraises. repeat split; [by intros ? ?%elem_of_nil | done]. }
  destruct (decode_text b) as [text|] eqn:Hdecode; simpl in Hops.
  2:{ rewrite Hops, Hraises.
      repeat split; [by intros ? ->%list_elem_of_singleton |].
      intros ???? [= <-]. congruence. }
  destruct (apply_rules_to_text text rules) as [[new_text counts]|e]
    eqn:Happly.
  2:{ rewrite Hops, (Hraises e eq_refl).
      repeat split; [by intros ? ->%list_elem_of_singleton |].
      intros ???? [= <-] Hdecode'. rewrite Hdecode in Hdecode'.
      injection Hdecode' as <-. by rewrite Happly. }
  rewrite Hops.
  rewrite (process_file_run _ _ _ _ _ _ _ _ _ Hfile Hdecode Happly).
  unfold process_ops. rewrite andb_false_r. simpl.
  repeat split; [by intros ? ->%list_elem_of_singleton |].
  intros ???? [= <-] Hdecode'. rewrite Hdecode in Hdecode'.
  injection Hdecode' as <-. rewrite Happly. by intros [= <- <-].
Qed.

(** C10. When the rules leave the text of the file as it is, a run
    returns [False], whatever the flags; it leaves every file as it was,
    a backup that exists included, and its only file operation is the
    read of the target. *)
Theorem process_file_unchanged rules file_path overwrite dry_run w b text
    counts :
  files w !! file_path = Some b →
  decode_text b = Some text →
  apply_rules_to_text text rules = Ok (text, counts) →
  ∃ w',
    process_file rules file_path overwrite dry_run w = (Ok false, w')
    ∧ files w' = files w
    ∧ ops w' = (ops w ++ [OpRead file_path])%list
    ∧ console w' = (console w ++ ProcessingTarget file_path
                      :: report_lines rules counts ++ [NoChanges])%list.
Proof.
  intros Hfile Hdecode Happly.
  rewrite (process_file_run _ _ _ _ _ _ _ _ _ Hfile Hdecode Happly).
  rewrite bool_decide_false by (intros Hne; by apply Hne).
  eexists. split; [done|]. done.
Qed.

(** *** More on the File Processor *)

(** The four ways a run can go. *)
Lemma process_file_cases rules file_path overwrite dry_run w :
  (files w !! file_path = None
   ∧ process_file rules file_path overwrite dry_run w
     = (Raise FileNotFoundError, w))
  ∨ (∃ b,
       files w !! file_path = Some b ∧ decode_text b = None
       ∧ process_file rules file_path overwrite dry_run w
         = (Raise UnicodeDecodeError, log_op (OpRead file_path) w))
  ∨ (∃ b text e,
       files w !! file_path = Some b ∧ decode_text b = Some text
       ∧ apply_rules_to_text text rules = Raise e
       ∧ process_file rules file_path overwrite dry_run w
         = (Raise e, log_op (OpRead file_path) w))
  ∨ (∃ b text new_text counts,
       files w !! file_path = Some b ∧ decode_text b = Some text
       ∧ apply_rules_to_text text rules = Ok (new_text, counts)
       ∧ process_file rules file_path overwrite dry_run w
         = (Ok (bool_decide (new_text ≠ text)),
            World (cwd w) (listing w)
              (if bool_decide (new_text ≠ text) && negb dry_run then
                 <[file_path := encode_text new_text]>
                   (if overwrite then files w
                    else <[file_path +:+ ".backup" := b]> (files w))
               else files w)
              (console w
               ++ process_console rules counts file_path
                    (bool_decide (new_text ≠ text)) overwrite dry_run)
              (ops w ++ OpRead file_path
                      :: process_ops file_path
                           (bool_decide (new_text ≠ text)) overwrite
                           dry_run))).
Proof.
  pose proof (process_file_raises rules file_path overwrite dry_run w)
    as Hraises.
  destruct (files w !! file_path) as [b|] eqn:Hfile; [|by left].
  right. destruct (decode_text b) as [text|] eqn:Hdecode.
  2:{ left. by exists b. }
  right. destruct (apply_rules_to_text text rules) as [[new_text counts]|e]
    eqn:Happly.
  - right. exists b, text, new_text, counts. repeat split; try done.
    by apply process_file_run.
  - left. exists b, text, e. repeat split; try done. by apply Hraises.
Qed.

(** A run changes no path but the target and its backup, and leaves the
    working directory and the tree as they were. *)
Lemma process_file_other_paths rules file_path overwrite dry_run w p :
  p ≠ file_path → p ≠ file_path +:+ ".backup" →
  files (process_file rules file_path overwrite dry_run w).2 !! p
  = files w !! p.
Proof.
  intros Hp Hbackup.
  destruct (process_file_cases rules file_path overwrite dry_run w)
    as [[_ ->]|[(b & _ & _ & ->)|[(b & text & e & _ & _ & _ & ->)
       |(b & text & new_text & counts & _ & _ & _ & ->)]]]; try done.
  simpl. destruct (bool_decide (new_text ≠ text) && negb dry_run); [|done].
  rewrite lookup_insert_ne by done.
  destruct overwrite; [done|]. by rewrite lookup_insert_ne.
Qed.

(** X5. [backup_file] raises [FileNotFoundError] and changes nothing when
    the file is missing.  Otherwise it makes the path with [.backup]
    appended hold the bytes of the file, whatever was there before, leaves
    the file itself and every other path as they were, and prints one
    line. *)
Theorem backup_file_copies file_path w :
  match files w !! file_path with
  | None => backup_file file_path w = (Raise FileNotFoundError, w)
  | Some b =>
      ∃ w',
        backup_file file_path w = (Ok tt, w')
        ∧ files w' !! (file_path +:+ ".backup") = Some b
        ∧ files w' !! file_path = Some b
        ∧ (∀ p, p ≠ file_path +:+ ".backup" → files w' !! p = files w !! p)
        ∧ console w'
          = (console w ++ [BackupCreated (file_path +:+ ".backup")])%list
        ∧ ops w'
          = (ops w ++ [OpCopy file_path (file_path +:+ ".backup")])%list
  end.
Proof.
  unfold backup_file, copy2. rewrite M_bind_unfold.
  destruct (files w !! file_path) as [b|] eqn:Hfile; [|done].
  eexists. split; [done|]. simpl.
  pose proof (append_nonempty_ne file_path ".backup" eq_refl) as Hne.
  repeat split.
  - by rewrite lookup_insert_eq.
  - by rewrite lookup_insert_ne.
  - intros p Hp. by rewrite lookup_insert_ne.
Qed.

(** The report has one line per rule. *)
Lemma report_lines_lookup rules counts i pattern replacement cnt :
  rules !! i = Some (pattern, replacement) →
  counts !! i = Some cnt →
  report_lines rules counts !! i
  = Some (RuleReport (S i) pattern replacement cnt).
Proof.
  intros Hrule Hcount. unfold report_lines.
  rewrite list_lookup_fmap.
  assert (zip rules counts !! i = Some ((pattern, replacement), cnt))
    as Hzip by by apply lookup_zip_Some.
  assert (zip (seq 1 (length (zip rules counts))) (zip rules counts) !! i
          = Some (S i, ((pattern, replacement), cnt))) as ->; [|done].
  apply lookup_zip_Some. split; [|done].
  apply lookup_seq. split; [done|]. by eapply lookup_lt_Some.
Qed.

Lemma report_lines_length rules counts :
  length counts = length rules →
  length (report_lines rules counts) = length rules.
Proof.
  intros Hlen. unfold report_lines.
  rewrite length_fmap, length_zip, length_seq, length_zip. lia.
Qed.

(** X6. A run that reads the file and applies the rules prints, after the
    line that names the target and before the line that tells what was
    done, one line per rule, in the order of the rules and numbered from
    1, with the pattern, the replacement and the count of that rule:
    [zip(rules, counts)] drops no rule, because there is one count per
    rule.  This holds whether or not the text has changed, and for all
    flags. *)
Theorem process_file_reports_every_rule rules file_path overwrite dry_run w
    b text new_text counts :
  files w !! file_path = Some b →
  decode_text b = Some text →
  apply_rules_to_text text rules = Ok (new_text, counts) →
  ∃ changed w' last_lines,
    process_file rules file_path overwrite dry_run w = (Ok changed, w')
    ∧ console w'
      = (console w ++ ProcessingTarget file_path
           :: report_lines rules counts ++ last_lines)%list
    ∧ length (report_lines rules counts) = length rules
    ∧ ∀ i pattern replacement,
        rules !! i = Some (pattern, replacement) →
        ∃ cnt,
          counts !! i = Some cnt
          ∧ report_lines rules counts !! i
            = Some (RuleReport (S i) pattern replacement cnt).
Proof.
  intros Hfile Hdecode Happly.
  pose proof (apply_rules_counts_length _ _ _ _ Happly) as Hlen.
  rewrite (process_file_run _ _ _ _ _ _ _ _ _ Hfile Hdecode Happly).
  eexists _, _, _. split; [done|]. split; [done|].
  split; [by apply report_lines_length|].
  intros i pattern replacement Hrule.
  destruct (lookup_lt_is_Some_2 counts i) as [cnt Hcount].
  { rewrite Hlen. by eapply lookup_lt_Some. }
  exists cnt. split; [done|]. by apply report_lines_lookup.
Qed.

(** X7. With [overwrite] on and [dry_run] off, a run that changes the text
    reads the file and writes the new text to it, and that is all: no
    copy is made, and every other path, the backup path included, keeps
    what it held. *)
Theorem process_file_overwrite rules file_path w b text new_text counts :
  files w !! file_path = Some b →
  decode_text b = Some text →
  apply_rules_to_text text rules = Ok (new_text, counts) →
  new_text ≠ text →
  ∃ w',
    process_file rules file_path true false w = (Ok true, w')
    ∧ ops w' = (ops w ++ [OpRead file_path; OpWrite file_path])%list
    ∧ files w' = <[file_path := encode_text new_text]> (files w)
    ∧ files w' !! (file_path +:+ ".backup")
      = files w !! (file_path +:+ ".backup").
Proof.
  intros Hfile Hdecode Happly Hchanged.
  rewrite (process_file_run _ _ _ _ _ _ _ _ _ Hfile Hdecode Happly).
  rewrite bool_decide_true by done. simpl.
  eexists. split; [done|]. simpl. repeat split.
  pose proof (append_nonempty_ne file_path ".backup" eq_refl) as Hne.
  by rewrite lookup_insert_ne.
Qed.

(** X8. Whatever the rules, the flags and the outcome, a run of
    [process_file] changes the content of no file other than the target
    and the path of its backup: every other path holds after the run what
    it held before. *)
Theorem process_file_frame rules file_path overwrite dry_run w p :
  p ≠ file_path →
  p ≠ file_path +:+ ".backup" →
  files (process_file rules file_path overwrite dry_run w).2 !! p
  = files w !! p.
Proof.
  intros Hp Hbackup.
  destruct (process_file_cases rules file_path overwrite dry_run w)
    as [[_ ->]|[(b & _ & _ & ->)|[(b & text & e & _ & _ & _ & ->)
       |(b & text & new_text & counts & _ & _ & _ & ->)]]]; try done.
  simpl. destruct (bool_decide (new_text ≠ text) && negb dry_run); [|done].
  rewrite lookup_insert_ne by done.
  destruct overwrite; [done|]. by rewrite lookup_insert_ne.
Qed.

(** X9. Two runs on the same target, with both flags off, that both
    change the text: the second run overwrites the backup of the first, so
    that afterwards the backup holds what the first run wrote, not what
    the file held before the two runs, and the file holds the result of
    the second rules on the result of the first. *)
Theorem process_file_twice rules1 rules2 file_path w b text text1 counts1
    text1' text2 counts2 :
  files w !! file_path = Some b →
  decode_text b = Some text →
  apply_rules_to_text text rules1 = Ok (text1, counts1) →
  text1 ≠ text →
  decode_text (encode_text text1) = Some text1' →
  apply_rules_to_text text1' rules2 = Ok (text2, counts2) →
  text2 ≠ text1' →
  ∃ w1 w2,
    process_file rules1 file_path false false w = (Ok true, w1)
    ∧ process_file rules2 file_path false false w1 = (Ok true, w2)
    ∧ files w1 !! (file_path +:+ ".backup") = Some b
    ∧ files w2 !! (file_path +:+ ".backup") = Some (encode_text text1)
    ∧ files w2 !! file_path = Some (encode_text text2).
Proof.
  intros Hfile Hdecode Happly1 Hchanged1 Hdecode1 Happly2 Hchanged2.
  pose proof (append_nonempty_ne file_path ".backup" eq_refl) as Hne.
  rewrite (process_file_run _ _ _ _ _ _ _ _ _ Hfile Hdecode Happly1).
  rewrite bool_decide_true by done. simpl.
  eexists _, _. split; [done|].
  erewrite process_file_run; [|simpl; apply lookup_insert_eq|done..].
  rewrite bool_decide_true by done. simpl.
  split; [done|]. repeat split; cbn [files].
  - by rewrite lookup_insert_ne, lookup_insert_eq.
  - by rewrite lookup_insert_ne, lookup_insert_eq.
  - by rewrite lookup_insert_eq.
Qed.

(** X10. When a rule of the list has a pattern that does not compile, a
    run on a file that exists and decodes does not get past the rules: it
    raises after the read and before the first [print], so that nothing
    is printed, no file is changed and no backup is made, for all flags.
    When the rules before that rule apply, the exception is the
    [re.error] of that pattern. *)
Theorem process_file_invalid_pattern rules file_path overwrite dry_run w
    b text pattern replacement :
  files w !! file_path = Some b →
  decode_text b = Some text →
  (pattern, replacement) ∈ rules →
  re_compile pattern = None →
  ∃ e,
    process_file rules file_path overwrite dry_run w
    = (Raise e, log_op (OpRead file_path) w)
    ∧ ∀ rules1 rules2 text1 counts1,
        rules = (rules1 ++ (pattern, replacement) :: rules2)%list →
        apply_rules_to_text text rules1 = Ok (text1, counts1) →
        e = ReError.
Proof.
  intros Hfile Hdecode Hin Hinvalid.
  pose proof (process_file_raises rules file_path overwrite dry_run w)
    as Hraises.
  rewrite Hfile, Hdecode in Hraises.
  destruct (apply_rules_to_text text rules) as [res|e] eqn:Happly.
  { by eapply apply_rules_loop_not_Ok in Happly. }
  exists e. split; [by apply Hraises|].
  intros rules1 rules2 text1 counts1 -> Hrules1.
  unfold apply_rules_to_text in *.
  rewrite apply_rules_loop_app, Hrules1 in Happly. simpl in Happly.
  unfold findall_multiline in Happly. rewrite Hinvalid in Happly.
  by injection Happly as <-.
Qed.

End ProcessorFacts.

(** ** The File Selector *)

Section SelectorFacts.
Context `{RegexEngine} `{Platform}.

Lemma dir_ind' (P : dir → Prop) :
  (∀ filenames subdirs,
     Forall (λ nd, P nd.2) subdirs → P (Dir filenames subdirs)) →
  ∀ d, P d.
Proof.
  intros HDir. fix IH 1. intros [filenames subdirs]. apply HDir.
  induction subdirs as [|[name d'] subdirs IHsubdirs]; constructor.
  - apply IH.
  - apply IHsubdirs.
Qed.

(** *** Splitting and joining *)

Lemma split_not_nil sep s : split sep s ≠ [].
Proof.
  destruct s as [|c s]; simpl; [done|].
  destruct (c =? sep)%char; [done|]. by destruct (split sep s).
Qed.

Lemma split_app_sep sep a b :
  split sep (a +:+ String sep b) = (split sep a ++ split sep b)%list.
Proof.
  induction a as [|c a IH]; simpl.
  - by rewrite Ascii.eqb_refl.
  - destruct (c =? sep)%char; [by rewrite IH|].
    rewrite IH. pose proof (split_not_nil sep a).
    by destruct (split sep a).
Qed.

Lemma split_no_sep sep s : has_char sep s = false → split sep s = [s].
Proof.
  induction s as [|c s IH]; simpl; [done|].
  intros [Hc Hs]%orb_false_iff. rewrite Hc, IH; done.
Qed.

Lemma ends_with_sep_inv a :
  ends_with_sep a = true → ∃ a', a = a' +:+ String os_sep EmptyString.
Proof.
  induction a as [|c a IH]; [done|].
  destruct a as [|d a].
  - simpl. intros ->%Ascii.eqb_eq. by exists EmptyString.
  - intros Hends. destruct (IH Hends) as [a' ->]. by exists (String c a').
Qed.

Lemma append_cons (x : ascii) (a b : string) :
  String x a +:+ b = String x (a +:+ b).
Proof. reflexivity. Qed.

Lemma append_assoc (a b c : string) : (a +:+ b) +:+ c = a +:+ (b +:+ c).
Proof.
  induction a as [|x a IH]; [done|]. rewrite !append_cons. by f_equal.
Qed.

(** Joining a valid name to a path adds one component. *)
Lemma components_join a name :
  valid_name name = true →
  components (os_path_join a name) = (components a ++ [name])%list.
Proof.
  intros [Hne Hsep%negb_true_iff]%andb_true_iff.
  unfold components, os_path_join.
  replace (starts_with_sep name) with false.
  2:{ destruct name as [|c name]; [done|]. simpl in *.
      by apply orb_false_iff in Hsep as [-> _]. }
  destruct a as [|c a].
  { simpl. rewrite split_no_sep by done.
    rewrite filter_cons_True by done. done. }
  cbn [nonempty negb orb].
  destruct (ends_with_sep (String c a)) eqn:Hends.
  - apply ends_with_sep_inv in Hends as [a' ->].
    rewrite append_assoc.
    change (String os_sep EmptyString +:+ name) with (String os_sep name).
    rewrite !split_app_sep, !filter_app. simpl split.
    rewrite (split_no_sep _ name) by done.
    rewrite (filter_cons_False _ EmptyString) by done.
    rewrite filter_cons_True by done. by rewrite app_nil_r.
  - rewrite split_app_sep, filter_app, (split_no_sep _ name) by done.
    by rewrite filter_cons_True.
Qed.

Lemma components_path_under root names :
  Forall (λ n, valid_name n = true) names →
  components (path_under root names) = (components root ++ names)%list.
Proof.
  unfold path_under. revert root.
  induction names as [|n names IH]; intros root Hvalid; simpl.
  - by rewrite app_nil_r.
  - apply Forall_cons in Hvalid as [Hn Hnames].
    rewrite IH, components_join by done. by rewrite <- app_assoc.
Qed.

Lemma common_prefix_length_app (l k : list string) :
  common_prefix_length l (l ++ k) = length l.
Proof.
  induction l as [|x l IH]; simpl; [done|].
  by rewrite bool_decide_true, IH.
Qed.

(** The path of a file under the root, relative to the root. *)
Lemma relpath_path_under root names :
  names ≠ [] →
  Forall (λ n, valid_name n = true) names →
  os_path_relpath (path_under root names) root = join os_sep names.
Proof.
  intros Hnames Hvalid. unfold os_path_relpath.
  rewrite components_path_under by done.
  rewrite common_prefix_length_app, Nat.sub_diag, drop_app_length. simpl.
  by destruct names.
Qed.

Lemma replace_app a b s t :
  replace a b (s +:+ t) = replace a b s +:+ replace a b t.
Proof. induction s as [|c s IH]; simpl; [done | by rewrite IH]. Qed.

Lemma replace_no_char a b s : has_char a s = false → replace a b s = s.
Proof.
  induction s as [|c s IH]; simpl; [done|].
  intros [-> Hs]%orb_false_iff. by rewrite IH.
Qed.

(** Normalising the separators of a relative path. *)
Lemma replace_join names :
  Forall (λ n, valid_name n = true) names →
  replace os_sep "/" (join os_sep names) = join "/" names.
Proof.
  induction names as [|n [|n' names] IH]; intros Hvalid; [done| |].
  - apply Forall_cons in Hvalid as [[_ Hn%negb_true_iff]%andb_true_iff _].
    simpl. by apply replace_no_char.
  - apply Forall_cons in Hvalid as [[_ Hn%negb_true_iff]%andb_true_iff Hrest].
    change (join os_sep (n :: n' :: names))
      with (n +:+ String os_sep (join os_sep (n' :: names))).
    change (join "/" (n :: n' :: names))
      with (n +:+ String "/" (join "/" (n' :: names))).
    rewrite replace_app, replace_no_char by done. cbn [replace].
    by rewrite Ascii.eqb_refl, IH.
Qed.

(** *** The walk *)

Lemma path_under_snoc root pre name :
  os_path_join (path_under root pre) name = path_under root (pre ++ [name]).
Proof. unfold path_under. by rewrite foldl_app. Qed.

Lemma selected_nil compiled root pre : selected compiled root pre [] = [].
Proof. reflexivity. Qed.

Lemma selected_app compiled root pre under1 under2 :
  selected compiled root pre (under1 ++ under2)
  = (selected compiled root pre under1
     ++ selected compiled root pre under2)%list.
Proof. unfold selected. by rewrite fmap_app, filter_app, fmap_app. Qed.

Lemma selected_cons compiled root pre names under :
  selected compiled root pre (names :: under)
  = (selected compiled root pre [names]
     ++ selected compiled root pre under)%list.
Proof. apply (selected_app _ _ _ [names]). Qed.

Lemma selected_cons_name compiled root pre name under :
  selected compiled root pre (cons name <$> under)
  = selected compiled root (pre ++ [name]) under.
Proof.
  unfold selected. rewrite <- list_fmap_compose. do 2 f_equal.
  apply list_fmap_ext. intros _ names _. simpl. by rewrite <- app_assoc.
Qed.

(** The inner loop, over the file names of one directory. *)
Lemma select_files_of_dir compiled root pre filenames acc :
  Forall (λ n, valid_name n = true) pre →
  forallb valid_name filenames = true →
  foldl (select_file compiled root (path_under root pre)) acc filenames
  = (acc ++ selected compiled root pre ((λ fn, [fn]) <$> filenames))%list.
Proof.
  intros Hpre. revert acc.
  induction filenames as [|fn filenames IH]; intros acc Hvalid.
  - simpl. by rewrite selected_nil, app_nil_r.
  - apply andb_true_iff in Hvalid as [Hfn Hvalid].
    assert (Forall (λ n, valid_name n = true) (pre ++ [fn])) as Hnames.
    { apply Forall_app. by repeat constructor. }
    cbn [foldl fmap list_fmap]. rewrite IH by done.
    rewrite selected_cons, app_assoc. f_equal.
    unfold select_file, selected. rewrite path_under_snoc.
    rewrite relpath_path_under, replace_join by (done || by destruct pre).
    simpl. destruct (re_search compiled (join "/" (pre ++ [fn]))) eqn:Hsearch.
    + by rewrite filter_cons_True.
    + rewrite filter_cons_False by congruence. by rewrite app_nil_r.
Qed.

(** The outer loop, over the directories of the walk. *)
Lemma select_files_of_walk compiled root d :
  ∀ pre acc,
    Forall (λ n, valid_name n = true) pre →
    valid_tree d = true →
    foldl (λ matched_files '(dirpath, filenames),
             foldl (select_file compiled root dirpath) matched_files
               filenames)
      acc (os_walk (path_under root pre) d)
    = (acc ++ selected compiled root pre (files_under d))%list.
Proof.
  induction d as [filenames subdirs IH] using dir_ind'.
  intros pre acc Hpre [Hfiles Hsubdirs]%andb_true_iff.
  cbn [os_walk files_under foldl].
  rewrite select_files_of_dir, selected_app, app_assoc by done.
  generalize (acc ++ selected compiled root pre ((λ fn, [fn]) <$> filenames))%list.
  clear acc Hfiles.
  induction subdirs as [|[name d'] subdirs IHsubdirs]; intros acc.
  - by rewrite selected_nil, app_nil_r.
  - apply Forall_cons in IH as [IHd' IH].
    apply andb_true_iff in Hsubdirs as [[Hname Hd']%andb_true_iff Hsubdirs].
    rewrite foldl_app.
    rewrite path_under_snoc.
    simpl in IHd'. rewrite IHd'; [|apply Forall_app; by repeat constructor|done].
    rewrite IHsubdirs by done.
    by rewrite selected_app, selected_cons_name, app_assoc.
Qed.

(** *** The selection *)

Lemma iter_files_with_regex_world path_regex w :
  iter_files_with_regex path_regex w
  = ((iter_files_with_regex path_regex
        (World (cwd w) (listing w) ∅ [] [])).1, w).
Proof.
  unfold iter_files_with_regex. run_M.
  by destruct (re_compile path_regex).
Qed.

Lemma iter_files_with_regex_invalid path_regex w :
  re_compile path_regex = None →
  iter_files_with_regex path_regex w = (Raise ReError, w).
Proof.
  intros Hinvalid. unfold iter_files_with_regex. run_M.
  by rewrite Hinvalid.
Qed.

Lemma iter_files_with_regex_selected path_regex compiled w :
  re_compile path_regex = Some compiled →
  valid_tree (listing w) = true →
  iter_files_with_regex path_regex w
  = (Ok (path_under (cwd w)
         <$> filter (λ names, re_search compiled (join "/" names) = true)
               (files_under (listing w))), w).
Proof.
  intros Hcompiled Hvalid.
  unfold iter_files_with_regex, Eff.lift, Eff.get.
  rewrite M_bind_unfold, Hcompiled. simpl. rewrite M_bind_unfold. simpl.
  unfold mret, M_ret. do 2 f_equal.
  etrans;
    [by apply (select_files_of_walk compiled (cwd w) (listing w) [] [])|].
  unfold selected. simpl. by rewrite list_fmap_id.
Qed.

(** *** No file is selected twice *)

Lemma files_under_Dir filenames subdirs :
  files_under (Dir filenames subdirs)
  = (((λ fn, [fn]) <$> filenames) ++ files_under (Dir [] subdirs))%list.
Proof. reflexivity. Qed.

Lemma files_under_subdirs_cons name d subdirs :
  files_under (Dir [] ((name, d) :: subdirs))
  = ((cons name <$> files_under d) ++ files_under (Dir [] subdirs))%list.
Proof. reflexivity. Qed.

Lemma files_under_subdirs_elem subdirs names :
  names ∈ files_under (Dir [] subdirs) →
  ∃ name d rest,
    (name, d) ∈ subdirs ∧ names = name :: rest ∧ rest ∈ files_under d.
Proof.
  induction subdirs as [|[name d] subdirs IH].
  - by intros ?%elem_of_nil.
  - rewrite files_under_subdirs_cons.
    intros [(rest & -> & Hrest)%list_elem_of_fmap|Hin]%elem_of_app.
    + exists name, d, rest. split; [by left | done].
    + destruct (IH Hin) as (name' & d' & rest & Hd' & -> & Hrest).
      exists name', d', rest. split; [by right | done].
Qed.

Lemma files_under_valid d :
  valid_tree d = true →
  ∀ names, names ∈ files_under d → Forall (λ n, valid_name n = true) names.
Proof.
  induction d as [filenames subdirs IH] using dir_ind'.
  intros [Hfiles Hsubdirs]%andb_true_iff names.
  rewrite files_under_Dir.
  intros [(fn & -> & Hfn)%list_elem_of_fmap|Hin]%elem_of_app.
  - rewrite forallb_forall in Hfiles. repeat constructor.
    apply Hfiles. by apply list_elem_of_In.
  - clear Hfiles.
    induction subdirs as [|[name d] subdirs IHsubdirs].
    { by apply elem_of_nil in Hin. }
    apply Forall_cons in IH as [IHd IH].
    apply andb_true_iff in Hsubdirs as [[Hname Hd]%andb_true_iff Hsubdirs].
    rewrite files_under_subdirs_cons in Hin.
    apply elem_of_app in Hin as [(rest & -> & Hrest)%list_elem_of_fmap|Hin].
    + constructor; [done|]. by apply IHd.
    + by apply IHsubdirs.
Qed.

Lemma distinct_names_subdirs_cons name d subdirs :
  distinct_names (Dir [] ((name, d) :: subdirs)) = true →
  (name ∉ subdirs.*1)
  ∧ distinct_names d = true
  ∧ distinct_names (Dir [] subdirs) = true.
Proof.
  simpl.
  intros [Hnames%bool_decide_eq_true [Hd Hsubdirs]%andb_true_iff]%andb_true_iff.
  apply NoDup_cons in Hnames as [Hname Hnames].
  repeat split; [done..|].
  by rewrite bool_decide_true.
Qed.

Lemma files_under_NoDup d :
  distinct_names d = true → NoDup (files_under d).
Proof.
  induction d as [filenames subdirs IH] using dir_ind'.
  intros Hdistinct.
  assert (NoDup filenames ∧ distinct_names (Dir [] subdirs) = true)
    as [Hfiles Hsubdirs].
  { simpl in Hdistinct.
    apply andb_true_iff in Hdistinct
      as [[Hfiles%bool_decide_eq_true Hnames]%andb_true_iff Hsubdirs].
    split; [done|]. simpl. by rewrite Hnames. }
  clear Hdistinct. rewrite files_under_Dir. apply NoDup_app. repeat split.
  - apply NoDup_fmap_2; [|done]. by intros x y [= ->].
  - intros names (fn & -> & _)%list_elem_of_fmap Hin.
    apply files_under_subdirs_elem in Hin
      as (name & d & rest & Hd & [= _ <-] & Hrest).
    rewrite Forall_forall in IH.
    clear -Hrest. destruct d as [filenames subdirs].
    rewrite files_under_Dir in Hrest.
    apply elem_of_app in Hrest as [(? & [=] & _)%list_elem_of_fmap|Hrest].
    by apply files_under_subdirs_elem in Hrest as (? & ? & ? & _ & [=] & _).
  - clear Hfiles.
    induction subdirs as [|[name d] subdirs IHsubdirs]; [constructor|].
    apply Forall_cons in IH as [IHd IH].
    apply distinct_names_subdirs_cons in Hsubdirs
      as (Hname & Hd & Hsubdirs).
    rewrite files_under_subdirs_cons. apply NoDup_app. repeat split.
    + apply NoDup_fmap_2; [|by apply IHd]. by intros x y [= ->].
    + intros names (rest & -> & _)%list_elem_of_fmap Hin.
      apply files_under_subdirs_elem in Hin
        as (name' & d' & rest' & Hd' & [= <- _] & _).
      apply Hname. apply list_elem_of_fmap. by exists (name, d').
    + by apply IHsubdirs.
Qed.

(** Two files under the root with the same path are the same file. *)
Lemma path_under_inj root names1 names2 :
  Forall (λ n, valid_name n = true) names1 →
  Forall (λ n, valid_name n = true) names2 →
  path_under root names1 = path_under root names2 →
  names1 = names2.
Proof.
  intros Hvalid1 Hvalid2 Hpath.
  apply (app_inv_head (components root)).
  by rewrite <- !components_path_under, Hpath.
Qed.

(** X16. Over a tree whose names are not empty and have no separator, and
    in which no two files and no two sub-directories of one directory have
    the same name, the selection has no path twice: a run of [main]
    processes every selected target once per rules file. *)
Theorem iter_files_no_duplicates path_regex compiled w :
  re_compile path_regex = Some compiled →
  valid_tree (listing w) = true →
  distinct_names (listing w) = true →
  ∃ selection,
    iter_files_with_regex path_regex w = (Ok selection, w)
    ∧ NoDup selection.
Proof.
  intros Hcompiled Hvalid Hdistinct.
  rewrite (iter_files_with_regex_selected _ compiled) by done.
  eexists. split; [done|].
  apply NoDup_fmap_2_strong.
  - intros names1 names2 [_ Hin1]%list_elem_of_filter
      [_ Hin2]%list_elem_of_filter.
    apply path_under_inj; by eapply files_under_valid.
  - apply NoDup_filter. by apply files_under_NoDup.
Qed.

End SelectorFacts.

(** C6. With a regex that compiles, over a tree whose names are not
    empty and have no separator, [iter_files_with_regex] returns the paths
    of exactly the files under the root for which the regex has a match
    somewhere in [join "/" names], the names from the root to the file
    joined by [/], in the order of the walk; [join "/" names] is the path
    relative to the root that the code computes, separators replaced by
    [/].  On the tree with [a.txt], [a.txt.bak] and [sub/b.txt], the regex
    [\.txt$] selects [a.txt] and [sub/b.txt] and nothing else. *)
Theorem iter_files_selects_matching :
  (∀ (E : RegexEngine) (P : Platform) path_regex compiled w,
     re_compile path_regex = Some compiled →
     valid_tree (listing w) = true →
     iter_files_with_regex path_regex w
     = (Ok (path_under (cwd w)
            <$> filter (λ names, re_search compiled (join "/" names) = true)
                  (files_under (listing w))), w))
  ∧ (∀ (P : Platform) root names,
       names ≠ [] →
       Forall (λ n, valid_name n = true) names →
       replace os_sep "/" (os_path_relpath (path_under root names) root)
       = join "/" names)
  ∧ files_under Examples.txt_tree
    = [["a.txt"]; ["a.txt.bak"]; ["sub"; "b.txt"]]
  ∧ @iter_files_with_regex Fragment.engine Posix.platform "\.txt$"
      Examples.txt_world
    = (Ok ["/home/user/a.txt"; "/home/user/sub/b.txt"], Examples.txt_world).
Proof.
  repeat split.
  - intros E P. apply iter_files_with_regex_selected.
  - intros P root names Hnames Hvalid.
    by rewrite relpath_path_under, replace_join.
Qed.

(** ** The Orchestrator *)

Section SortFacts.
Context (key : string → string).

Lemma leb_refl (s : string) : String.leb s s = true.
Proof.
  unfold String.leb.
  destruct (String.compare s s) eqn:Hcmp; try done.
  pose proof (String.compare_antisym s s) as Hanti.
  rewrite Hcmp in Hanti. done.
Qed.

Lemma insert_by_key_perm x l : insert_by_key key x l ≡ₚ x :: l.
Proof.
  induction l as [|y l IH]; simpl; [done|].
  destruct (String.leb (key x) (key y)); [done|].
  rewrite IH. apply Permutation_swap.
Qed.

Lemma insert_by_key_sorted x l :
  Sorted (key_le key) l → Sorted (key_le key) (insert_by_key key x l).
Proof.
  induction 1 as [|y l Hsorted IH Hhd]; simpl.
  - by repeat constructor.
  - destruct (String.leb (key x) (key y)) eqn:Hle.
    + by repeat constructor.
    + assert (key_le key y x) as Hyx.
      { destruct (String.leb_total (key x) (key y)); [congruence | done]. }
      constructor; [done|].
      destruct Hhd as [|z l Hyz]; simpl; [by constructor|].
      destruct (String.leb (key x) (key z)); by constructor.
Qed.

(** Among the elements of one key, the inserted one comes first and the
    others keep their order. *)
Lemma insert_by_key_filter x l k :
  filter (λ y, key y = k) (insert_by_key key x l)
  = filter (λ y, key y = k) (x :: l).
Proof.
  induction l as [|y l IH]; simpl; [done|].
  destruct (String.leb (key x) (key y)) eqn:Hle; [done|].
  assert (key y ≠ key x) as Hne.
  { intros Heq. rewrite Heq, leb_refl in Hle. done. }
  destruct (decide (key x = k)) as [Hx|Hx].
  - rewrite (filter_cons_False _ y) by congruence.
    rewrite IH, !(filter_cons_True _ x) by done.
    by rewrite (filter_cons_False _ y) by congruence.
  - rewrite (filter_cons_False _ x) by done.
    rewrite (filter_cons_False _ x) in IH by done.
    destruct (decide (key y = k)).
    + by rewrite !(filter_cons_True _ y), IH.
    + by rewrite !(filter_cons_False _ y), IH.
Qed.

Lemma sort_by_key_perm l : sort_by_key key l ≡ₚ l.
Proof.
  induction l as [|x l IH]; simpl; [done|].
  by rewrite insert_by_key_perm, IH.
Qed.

Lemma sort_by_key_sorted l : Sorted (key_le key) (sort_by_key key l).
Proof.
  induction l as [|x l IH]; simpl; [constructor|].
  by apply insert_by_key_sorted.
Qed.

Lemma sort_by_key_stable l k :
  filter (λ y, key y = k) (sort_by_key key l) = filter (λ y, key y = k) l.
Proof.
  induction l as [|x l IH]; simpl; [done|].
  rewrite insert_by_key_filter.
  destruct (decide (key x = k)).
  - by rewrite !(filter_cons_True _ x), IH.
  - by rewrite !(filter_cons_False _ x), IH.
Qed.

(** *** The order does not depend on the listing *)

Lemma key_le_transitive : Transitive (key_le key).
Proof.
  intros x y z Hxy Hyz. unfold key_le in *.
  apply Is_true_true. apply Is_true_true in Hxy, Hyz.
  by apply (transitivity (R := String.le) (y := key y)).
Qed.

Lemma NoDup_fmap_inj_on (l : list string) x y :
  NoDup (key <$> l) → x ∈ l → y ∈ l → key x = key y → x = y.
Proof.
  induction l as [|z l IH]; simpl; [by intros _ ?%elem_of_nil|].
  intros [Hz Hl]%NoDup_cons [->|Hx]%elem_of_cons [->|Hy]%elem_of_cons Hkey;
    [done | | |by apply IH].
  - destruct Hz. rewrite Hkey. by apply list_elem_of_fmap_2.
  - destruct Hz. rewrite <- Hkey. by apply list_elem_of_fmap_2.
Qed.

(** X14. When no two elements have the same key, the sorted list depends
    on the elements only, not on the order they come in: two lists that
    are permutations of one another sort to the same list.  For [main],
    whose key is the file name: when the file names of the selected rules
    files are all different, the order in which the rules files are
    applied does not depend on the order in which the walk found them. *)
Theorem sort_by_key_order_independent l1 l2 :
  l1 ≡ₚ l2 →
  NoDup (key <$> l1) →
  sort_by_key key l1 = sort_by_key key l2.
Proof.
  intros Hperm Hkeys.
  pose proof key_le_transitive.
  apply (Sorted_unique_strong (key_le key)).
  - intros x1 x2 Hx1 Hx2 H12 H21.
    rewrite sort_by_key_perm in Hx1.
    rewrite sort_by_key_perm, <- Hperm in Hx2.
    apply (NoDup_fmap_inj_on l1); [done..|].
    by apply String.leb_antisym.
  - apply sort_by_key_sorted.
  - apply sort_by_key_sorted.
  - by rewrite !sort_by_key_perm.
Qed.

(** X15. Sorting a list that is already in order by key gives the list
    back: running [main] on a selection that the walk found in file-name
    order applies the rules files in the order of the walk. *)
Theorem sort_by_key_sorted_id l :
  Sorted (key_le key) l → sort_by_key key l = l.
Proof.
  induction 1 as [|x l Hsorted IH Hhd]; [done|].
  simpl. rewrite IH.
  destruct Hhd as [|y l Hxy]; [done|].
  simpl. unfold key_le in Hxy. by rewrite Hxy.
Qed.

End SortFacts.

Section OrchestratorFacts.
Context `{RegexEngine} `{Platform}.

(** The selection reads the tree and nothing else, and changes nothing. *)
Lemma iter_files_with_regex_same_tree path_regex w w' :
  cwd w' = cwd w → listing w' = listing w →
  iter_files_with_regex path_regex w'
  = ((iter_files_with_regex path_regex w).1, w').
Proof.
  intros Hcwd Hlisting.
  rewrite (iter_files_with_regex_world _ w'),
    (iter_files_with_regex_world _ w).
  by rewrite Hcwd, Hlisting.
Qed.

(** The counter of the inner loop counts the runs that returned [True]. *)
Lemma process_targets_count rules target_files a total_changed w :
  process_targets rules target_files a total_changed w
  = match run_targets rules target_files a w with
    | (Ok changes, w') =>
        (Ok (total_changed
             + length (filter (λ changed, changed = true) changes)), w')
    | (Raise e, w') => (Raise e, w')
    end.
Proof.
  revert total_changed w.
  induction target_files as [|target_file target_files IH];
    intros total_changed w; simpl.
  - unfold mret, M_ret. by rewrite Nat.add_0_r.
  - rewrite !M_bind_unfold.
    destruct (process_file rules target_file (overwrite a) (dry_run a) w)
      as [[changed|e] w1]; [|done].
    rewrite IH, M_bind_unfold.
    destruct (run_targets rules target_files a w1) as [[changes|e] w2];
      [|done].
    unfold mret, M_ret. do 2 f_equal.
    destruct changed.
    + rewrite filter_cons_True by done. simpl. lia.
    + by rewrite filter_cons_False.
Qed.

(** The counter of the outer loop counts them over all the rules files. *)
Lemma apply_rules_files_count rules_files target_files a total_changed w :
  apply_rules_files rules_files target_files a total_changed w
  = match run_rules_files rules_files target_files a w with
    | (Ok rows, w') => (Ok (total_changed + count_changed rows), w')
    | (Raise e, w') => (Raise e, w')
    end.
Proof.
  revert total_changed w.
  induction rules_files as [|rules_path rules_files IH];
    intros total_changed w; simpl.
  - unfold mret, M_ret, count_changed. simpl. by rewrite Nat.add_0_r.
  - rewrite !M_bind_unfold.
    destruct (load_rules_from_file rules_path w) as [[rules|e] w1]; [|done].
    rewrite !M_bind_unfold. simpl.
    rewrite !M_bind_unfold, process_targets_count.
    destruct (run_targets rules target_files a _) as [[changes|e] w2];
      [|done].
    rewrite IH, M_bind_unfold.
    destruct (run_rules_files rules_files target_files a w2)
      as [[rows|e] w3]; [|done].
    unfold mret, M_ret, count_changed. simpl.
    rewrite filter_app, length_app. do 2 f_equal. lia.
Qed.

(** [main], once both selections have files. *)
Lemma main_runs_pairs a w rules_files target_files :
  iter_files_with_regex (rules_regex a) w = (Ok rules_files, w) →
  rules_files ≠ [] →
  iter_files_with_regex (target_regex a) w = (Ok target_files, w) →
  target_files ≠ [] →
  main a w
  = match run_rules_files (sort_by_key os_path_basename rules_files)
            target_files a
            (World (cwd w) (listing w) (files w)
               (console w
                ++ FoundRulesFiles
                     (length (sort_by_key os_path_basename rules_files))
                   :: (RulesFileName
                       <$> sort_by_key os_path_basename rules_files)
                ++ [FoundTargetFiles (length target_files)])
               (ops w)) with
    | (Ok rows, w') =>
        (Ok tt,
         log_line (Done (length target_files) (count_changed rows)
                     (dry_run a)) w')
    | (Raise e, w') => (Raise e, w')
    end.
Proof.
  intros Hrules Hrules_ne Htargets Htargets_ne.
  unfold main. rewrite M_bind_unfold.
  unfold Eff.except_re_error at 1. rewrite Hrules.
  rewrite bool_decide_false by done.
  repeat step_M.
  rewrite (for_each_print _ _ RulesFileName) by done.
  repeat step_M.
  unfold Eff.except_re_error at 1.
  rewrite (iter_files_with_regex_same_tree _ w) by done.
  rewrite Htargets. cbn [fst].
  rewrite bool_decide_false by done.
  repeat step_M.
  rewrite apply_rules_files_count. unfold log_line. simpl.
  rewrite <- !app_assoc. simpl.
  destruct (run_rules_files _ _ _ _) as [[rows|e] w']; done.
Qed.

(** [main] stops before the loops when a regex does not compile or a
    selection has no file. *)
Lemma main_invalid_rules_regex a w :
  re_compile (rules_regex a) = None →
  main a w = (Raise (SystemExit 1), log_line InvalidRulesRegex w).
Proof.
  intros Hinvalid. unfold main. rewrite M_bind_unfold.
  unfold Eff.except_re_error at 1.
  rewrite iter_files_with_regex_invalid by done.
  by repeat step_M.
Qed.

Lemma main_no_rules_files a w :
  iter_files_with_regex (rules_regex a) w = (Ok [], w) →
  main a w = (Raise (SystemExit 2), log_line NoRulesFilesMatched w).
Proof.
  intros Hrules. unfold main. rewrite M_bind_unfold.
  unfold Eff.except_re_error at 1. rewrite Hrules.
  rewrite bool_decide_true by done.
  by repeat step_M.
Qed.

Lemma main_invalid_target_regex a w rules_files :
  iter_files_with_regex (rules_regex a) w = (Ok rules_files, w) →
  rules_files ≠ [] →
  re_compile (target_regex a) = None →
  main a w
  = (Raise (SystemExit 1),
     World (cwd w) (listing w) (files w)
       (console w
        ++ FoundRulesFiles
             (length (sort_by_key os_path_basename rules_files))
           :: (RulesFileName <$> sort_by_key os_path_basename rules_files)
        ++ [InvalidTargetRegex])
       (ops w)).
Proof.
  intros Hrules Hrules_ne Hinvalid.
  unfold main. rewrite M_bind_unfold.
  unfold Eff.except_re_error at 1. rewrite Hrules.
  rewrite bool_decide_false by done.
  repeat step_M.
  rewrite (for_each_print _ _ RulesFileName) by done.
  repeat step_M.
  unfold Eff.except_re_error at 1.
  rewrite iter_files_with_regex_invalid by done.
  repeat step_M. unfold log_line. simpl.
  by rewrite <- !app_assoc.
Qed.

Lemma main_no_target_files a w rules_files :
  iter_files_with_regex (rules_regex a) w = (Ok rules_files, w) →
  rules_files ≠ [] →
  iter_files_with_regex (target_regex a) w = (Ok [], w) →
  main a w
  = (Raise (SystemExit 2),
     World (cwd w) (listing w) (files w)
       (console w
        ++ FoundRulesFiles
             (length (sort_by_key os_path_basename rules_files))
           :: (RulesFileName <$> sort_by_key os_path_basename rules_files)
        ++ [NoTargetFilesMatched])
       (ops w)).
Proof.
  intros Hrules Hrules_ne Htargets.
  unfold main. rewrite M_bind_unfold.
  unfold Eff.except_re_error at 1. rewrite Hrules.
  rewrite bool_decide_false by done.
  repeat step_M.
  rewrite (for_each_print _ _ RulesFileName) by done.
  repeat step_M.
  unfold Eff.except_re_error at 1.
  rewrite (iter_files_with_regex_same_tree _ w) by done.
  rewrite Htargets. cbn [fst].
  rewrite bool_decide_true by done.
  repeat step_M. unfold log_line. simpl.
  by rewrite <- !app_assoc.
Qed.

(** C8, amended. [main] exits with code 1 when the rules regex does not
    compile, and when it compiles and selects a file and the target regex
    does not compile; it exits with code 2 when the rules regex compiles
    and selects no file, whatever the target regex is, and when both
    compile, the rules regex selects a file and the target regex selects
    none.  In the four cases no file is read, copied or written: the log of
    file operations and the files are as before. *)
Theorem main_exit_codes a w :
  (re_compile (rules_regex a) = None →
   (main a w).1 = Raise (SystemExit 1) ∧ exit_code (main a w).1 = 1
   ∧ ops (main a w).2 = ops w ∧ files (main a w).2 = files w)
  ∧ (iter_files_with_regex (rules_regex a) w = (Ok [], w) →
     (main a w).1 = Raise (SystemExit 2) ∧ exit_code (main a w).1 = 2
     ∧ ops (main a w).2 = ops w ∧ files (main a w).2 = files w)
  ∧ (∀ rules_files,
       iter_files_with_regex (rules_regex a) w = (Ok rules_files, w) →
       rules_files ≠ [] →
       re_compile (target_regex a) = None →
       (main a w).1 = Raise (SystemExit 1) ∧ exit_code (main a w).1 = 1
       ∧ ops (main a w).2 = ops w ∧ files (main a w).2 = files w)
  ∧ (∀ rules_files,
       iter_files_with_regex (rules_regex a) w = (Ok rules_files, w) →
       rules_files ≠ [] →
       iter_files_with_regex (target_regex a) w = (Ok [], w) →
       (main a w).1 = Raise (SystemExit 2) ∧ exit_code (main a w).1 = 2
       ∧ ops (main a w).2 = ops w ∧ files (main a w).2 = files w).
Proof.
  repeat apply conj.
  - intros Hinvalid. by rewrite main_invalid_rules_regex.
  - intros Hrules. by rewrite main_no_rules_files.
  - intros rules_files Hrules Hne Hinvalid.
    by rewrite (main_invalid_target_regex _ _ rules_files).
  - intros rules_files Hrules Hne Htargets.
    by rewrite (main_no_target_files _ _ rules_files).
Qed.

(** *** What [main] keeps *)

Lemma iter_files_with_regex_cases path_regex w :
  (∃ selection, iter_files_with_regex path_regex w = (Ok selection, w))
  ∨ (re_compile path_regex = None
     ∧ iter_files_with_regex path_regex w = (Raise ReError, w)).
Proof.
  destruct (re_compile path_regex) as [compiled|] eqn:Hcompile.
  - left. unfold iter_files_with_regex, Eff.lift, Eff.get.
    rewrite M_bind_unfold, Hcompile. simpl. rewrite M_bind_unfold. simpl.
    by eexists.
  - right. split; [done|]. by apply iter_files_with_regex_invalid.
Qed.

(** A property of the world that every run of [process_file] on a target
    keeps is kept by the inner loop. *)
Lemma run_targets_invariant (I : world → Prop) rules target_files a w :
  (∀ t w', t ∈ target_files → I w' →
           I (process_file rules t (overwrite a) (dry_run a) w').2) →
  I w → I (run_targets rules target_files a w).2.
Proof.
  revert w.
  induction target_files as [|t target_files IH]; intros w Hprocess Hw;
    [done|].
  simpl. rewrite M_bind_unfold.
  pose proof (Hprocess t w ltac:(by left) Hw) as Hw1.
  destruct (process_file rules t (overwrite a) (dry_run a) w)
    as [[changed|e] w1]; [|done].
  rewrite M_bind_unfold.
  assert (I (run_targets rules target_files a w1).2) as Hw2.
  { apply IH; [|done]. intros t' w' Ht'. apply Hprocess. by right. }
  by destruct (run_targets rules target_files a w1) as [[changes|e] w2].
Qed.

(** ... and by the outer loop, if loading rules and printing keep it. *)
Lemma run_rules_files_invariant (I : world → Prop) rules_files target_files
    a w :
  (∀ w' c, I w' → I (World (cwd w') (listing w') (files w') c (ops w'))) →
  (∀ path w', I w' → I (load_rules_from_file path w').2) →
  (∀ rules t w', t ∈ target_files → I w' →
                 I (process_file rules t (overwrite a) (dry_run a) w').2) →
  I w → I (run_rules_files rules_files target_files a w).2.
Proof.
  intros Hconsole Hload Hprocess. revert w.
  induction rules_files as [|rules_path rules_files IH]; intros w Hw;
    [done|].
  simpl. rewrite M_bind_unfold.
  pose proof (Hload rules_path w Hw) as Hw1.
  destruct (load_rules_from_file rules_path w) as [[rules|e] w1]; [|done].
  repeat step_M.
  assert (I (log_line (ExecutingRules rules_path (length rules)) w1))
    as Hw1' by by apply Hconsole.
  pose proof (run_targets_invariant I rules target_files a _
                (Hprocess rules) Hw1') as Hw2.
  destruct (run_targets rules target_files a _) as [[changes|e] w2];
    [|done].
  rewrite M_bind_unfold. specialize (IH w2 Hw2).
  by destruct (run_rules_files rules_files target_files a w2)
    as [[rows|e] w3].
Qed.

(** ... and by [main], whatever way it ends. *)
Lemma main_invariant (I : world → Prop) a w :
  (∀ w' c, I w' → I (World (cwd w') (listing w') (files w') c (ops w'))) →
  (∀ path w', I w' → I (load_rules_from_file path w').2) →
  (∀ target_files rules t w',
     iter_files_with_regex (target_regex a) w = (Ok target_files, w) →
     t ∈ target_files → I w' →
     I (process_file rules t (overwrite a) (dry_run a) w').2) →
  I w → I (main a w).2.
Proof.
  intros Hconsole Hload Hprocess Hw.
  destruct (iter_files_with_regex_cases (rules_regex a) w)
    as [[rules_files Hrules]|[Hinvalid _]].
  2:{ rewrite main_invalid_rules_regex by done. by apply Hconsole. }
  destruct (decide (rules_files = [])) as [->|Hrules_ne].
  { rewrite main_no_rules_files by done. by apply Hconsole. }
  destruct (iter_files_with_regex_cases (target_regex a) w)
    as [[target_files Htargets]|[Hinvalid _]].
  2:{ rewrite (main_invalid_target_regex _ _ rules_files) by done.
      by apply Hconsole. }
  destruct (decide (target_files = [])) as [->|Htargets_ne].
  { rewrite (main_no_target_files _ _ rules_files) by done.
    by apply Hconsole. }
  rewrite (main_runs_pairs _ _ rules_files target_files) by done.
  match goal with
  | |- context [run_rules_files ?rfs ?tfs ?a ?w1] =>
      assert (I (run_rules_files rfs tfs a w1).2) as Hw2;
      [ apply run_rules_files_invariant;
        [ done | done
        | intros rules t w'; by apply (Hprocess target_files)
        | by apply Hconsole ]
      | destruct (run_rules_files rfs tfs a w1) as [[rows|e] w2] ]
  end.
  - by apply Hconsole.
  - done.
Qed.

Lemma load_rules_from_file_ops path w :
  files (load_rules_from_file path w).2 = files w
  ∧ (ops (load_rules_from_file path w).2 = ops w
     ∨ ops (load_rules_from_file path w).2 = (ops w ++ [OpRead path])%list).
Proof.
  destruct (files w !! path) as [b|] eqn:Hfile.
  2:{ rewrite load_rules_from_file_missing by done. auto. }
  destruct (decode_text b) as [text|] eqn:Hdecode.
  - rewrite (load_rules_from_file_run _ _ _ _ Hfile Hdecode). auto.
  - rewrite (load_rules_from_file_undecodable _ _ _ Hfile Hdecode). auto.
Qed.

(** X11. With [dry_run] on, [main] changes no file, whatever the other
    arguments and the world are and whatever way it ends (an exit, an
    exception that is not caught, or the end); all the file operations it
    adds to the log are reads. *)
Theorem main_dry_run_changes_no_file a w :
  dry_run a = true →
  files (main a w).2 = files w
  ∧ ∃ reads,
      ops (main a w).2 = (ops w ++ reads)%list ∧ Forall is_read reads.
Proof.
  intros Hdry.
  apply (main_invariant
           (λ w', files w' = files w
                  ∧ ∃ reads, ops w' = (ops w ++ reads)%list
                             ∧ Forall is_read reads)).
  - by intros w' c.
  - intros path w' [Hfiles (reads & Hops & Hreads)].
    destruct (load_rules_from_file_ops path w') as [-> [-> | ->]].
    + split; [done|]. by exists reads.
    + split; [done|]. exists (reads ++ [OpRead path])%list.
      rewrite Hops, <- app_assoc. split; [done|].
      apply Forall_app. by repeat constructor.
  - intros _ rules t w' _ _ [Hfiles (reads & Hops & Hreads)].
    rewrite Hdry.
    destruct (process_file_cases rules t (overwrite a) true w')
      as [[_ ->]|[(b & _ & _ & ->)|[(b & text & e & _ & _ & _ & ->)
         |(b & text & new_text & counts & _ & _ & _ & ->)]]]; simpl.
    + split; [done|]. by exists reads.
    + split; [done|]. exists (reads ++ [OpRead t])%list.
      rewrite Hops, <- app_assoc. split; [done|].
      apply Forall_app. by repeat constructor.
    + split; [done|]. exists (reads ++ [OpRead t])%list.
      rewrite Hops, <- app_assoc. split; [done|].
      apply Forall_app. by repeat constructor.
    + rewrite andb_false_r. split; [done|].
      unfold process_ops. rewrite andb_false_r.
      exists (reads ++ [OpRead t])%list.
      rewrite Hops, <- app_assoc. split; [done|].
      apply Forall_app. by repeat constructor.
  - split; [done|]. exists []. by rewrite app_nil_r.
Qed.

(** X12. [main] changes no file other than the selected target files and
    their backups: a path that is neither a file of the target selection
    nor such a file's path with [.backup] appended holds after the run
    what it held before, whatever way the run ends.  A rules file that is
    not itself selected as a target is such a path. *)
Theorem main_changes_targets_only a w p :
  (∀ target_files t,
     iter_files_with_regex (target_regex a) w = (Ok target_files, w) →
     t ∈ target_files → p ≠ t ∧ p ≠ t +:+ ".backup") →
  files (main a w).2 !! p = files w !! p.
Proof.
  intros Hother.
  apply (main_invariant (λ w', files w' !! p = files w !! p)).
  - by intros w' c.
  - intros path w' Hp.
    by destruct (load_rules_from_file_ops path w') as [-> _].
  - intros target_files rules t w' Htargets Ht Hp.
    destruct (Hother target_files t Htargets Ht) as [Hne Hbackup].
    by rewrite process_file_other_paths.
  - done.
Qed.

(** X13. With [overwrite] on, [main] makes no backup: no copy is among the
    file operations it adds to the log, whatever way it ends. *)
Theorem main_overwrite_makes_no_backup a w :
  overwrite a = true →
  ∃ new,
    ops (main a w).2 = (ops w ++ new)%list
    ∧ Forall (λ o, ¬ is_copy o) new.
Proof.
  intros Hoverwrite.
  apply (main_invariant
           (λ w', ∃ new, ops w' = (ops w ++ new)%list
                         ∧ Forall (λ o, ¬ is_copy o) new)).
  - by intros w' c.
  - intros path w' (new & Hops & Hnew).
    destruct (load_rules_from_file_ops path w') as [_ [-> | ->]].
    + by exists new.
    + exists (new ++ [OpRead path])%list.
      rewrite Hops, <- app_assoc. split; [done|].
      apply Forall_app. split; [done|]. repeat constructor. by intros [].
  - intros _ rules t w' _ _ (new & Hops & Hnew).
    rewrite Hoverwrite.
    destruct (process_file_cases rules t true (dry_run a) w')
      as [[_ ->]|[(b & _ & _ & ->)|[(b & text & e & _ & _ & _ & ->)
         |(b & text & new_text & counts & _ & _ & _ & ->)]]]; simpl.
    + by exists new.
    + exists (new ++ [OpRead t])%list.
      rewrite Hops, <- app_assoc. split; [done|].
      apply Forall_app. split; [done|]. repeat constructor. by intros [].
    + exists (new ++ [OpRead t])%list.
      rewrite Hops, <- app_assoc. split; [done|].
      apply Forall_app. split; [done|]. repeat constructor. by intros [].
    + exists (new ++ OpRead t
                :: process_ops t (bool_decide (new_text ≠ text)) true
                     (dry_run a))%list.
      rewrite Hops, <- app_assoc. split; [done|].
      apply Forall_app. split; [done|].
      unfold process_ops.
      destruct (bool_decide (new_text ≠ text) && negb (dry_run a)); simpl;
        repeat constructor; by intros [].
  - exists []. by rewrite app_nil_r.
Qed.

(** *** How many runs [main] makes *)

(** The inner loop, when it returns: one result per target. *)
Lemma run_targets_outcome rules target_files a w :
  match (run_targets rules target_files a w).1 with
  | Ok changes => length changes = length target_files
  | Raise _ => True
  end.
Proof.
  revert w. induction target_files as [|t target_files IH]; intros w;
    [done|].
  simpl. rewrite M_bind_unfold.
  destruct (process_file rules t (overwrite a) (dry_run a) w)
    as [[changed|e] w1]; [|done].
  rewrite M_bind_unfold. specialize (IH w1).
  destruct (run_targets rules target_files a w1) as [[changes|e] w2];
    simpl in *; [by f_equal | done].
Qed.

(** The outer loop, when it returns: one row per rules file, every row
    with one result per target. *)
Lemma run_rules_files_outcome rules_files target_files a w :
  match (run_rules_files rules_files target_files a w).1 with
  | Ok rows =>
      length rows = length rules_files
      ∧ Forall (λ row, length row = length target_files) rows
  | Raise _ => True
  end.
Proof.
  revert w. induction rules_files as [|rules_path rules_files IH];
    intros w; [by split|].
  simpl. rewrite M_bind_unfold.
  destruct (load_rules_from_file rules_path w) as [[rules|e] w1]; [|done].
  repeat step_M.
  match goal with
  | |- context [run_targets rules target_files a ?w1'] =>
      pose proof (run_targets_outcome rules target_files a w1') as Hrow;
      destruct (run_targets rules target_files a w1') as [[changes|e] w2]
  end; [|done].
  rewrite M_bind_unfold. specialize (IH w2).
  destruct (run_rules_files rules_files target_files a w2)
    as [[rows|e] w3]; simpl in *; [|done].
  destruct IH as [Hlen Hrows]. split; [by f_equal | by constructor].
Qed.

Lemma count_changed_bound (rows : list (list bool)) n m :
  length rows = n → Forall (λ row, length row = m) rows →
  count_changed rows ≤ n * m.
Proof.
  intros <- Hrows. unfold count_changed.
  etrans; [apply length_filter|].
  induction Hrows as [|row rows Hrow _ IH]; [done|].
  simpl. rewrite length_app, Hrow. lia.
Qed.

(** X20. When both selections have files and [main] returns, its last
    line is the [Done] line, with the number of target files and a total
    that is at most the number of rules files times the number of target
    files. *)
Theorem main_total_bound a w rules_files target_files :
  iter_files_with_regex (rules_regex a) w = (Ok rules_files, w) →
  rules_files ≠ [] →
  iter_files_with_regex (target_regex a) w = (Ok target_files, w) →
  target_files ≠ [] →
  (main a w).1 = Ok tt →
  ∃ total,
    last (console (main a w).2)
    = Some (Done (length target_files) total (dry_run a))
    ∧ total ≤ length rules_files * length target_files.
Proof.
  intros Hrules Hrules_ne Htargets Htargets_ne.
  rewrite (main_runs_pairs _ _ rules_files target_files) by done.
  match goal with
  | |- context [run_rules_files ?rfs ?tfs a ?w1] =>
      pose proof (run_rules_files_outcome rfs tfs a w1) as Hrows;
      destruct (run_rules_files rfs tfs a w1) as [[rows|e] w2]
  end; simpl in *; [|done].
  intros _. destruct Hrows as [Hlen Hrows].
  exists (count_changed rows). split; [by rewrite last_snoc|].
  apply count_changed_bound; [|done].
  by rewrite Hlen, sort_by_key_perm.
Qed.

End OrchestratorFacts.

(** C7. Once both selections have files, [main] takes the rules files in
    the order of the sort by file name, loads each one and runs
    [process_file] with its rules on every target file in the order of the
    selection, and the total of the [Done] line is the number of pairs of
    a rules file and a target file for which [process_file] returned
    [True].  The sorted list is a permutation of the selection, goes up by
    file name, and keeps the files of one name in the order of the
    selection.  With two rules files that both change one target, the
    total is 2 for 1 target file. *)
Theorem main_counts_changed_pairs :
  (∀ (E : RegexEngine) (P : Platform) a w rules_files target_files,
     iter_files_with_regex (rules_regex a) w = (Ok rules_files, w) →
     rules_files ≠ [] →
     iter_files_with_regex (target_regex a) w = (Ok target_files, w) →
     target_files ≠ [] →
     main a w
     = match run_rules_files (sort_by_key os_path_basename rules_files)
               target_files a
               (World (cwd w) (listing w) (files w)
                  (console w
                   ++ FoundRulesFiles
                        (length (sort_by_key os_path_basename rules_files))
                      :: (RulesFileName
                          <$> sort_by_key os_path_basename rules_files)
                   ++ [FoundTargetFiles (length target_files)])
                  (ops w)) with
       | (Ok rows, w') =>
           (Ok tt,
            log_line (Done (length target_files) (count_changed rows)
                        (dry_run a)) w')
       | (Raise e, w') => (Raise e, w')
       end)
  ∧ (∀ (P : Platform) rules_files,
       sort_by_key os_path_basename rules_files ≡ₚ rules_files
       ∧ Sorted (key_le os_path_basename)
           (sort_by_key os_path_basename rules_files)
       ∧ ∀ name,
           filter (λ p, os_path_basename p = name)
             (sort_by_key os_path_basename rules_files)
           = filter (λ p, os_path_basename p = name) rules_files)
  ∧ (@main Fragment.engine Posix.platform
       (Args false false "\.rules$" "t\.txt$") Examples.two_rules_world).1
    = Ok tt
  ∧ console
      (@main Fragment.engine Posix.platform
         (Args false false "\.rules$" "t\.txt$") Examples.two_rules_world).2
    = [FoundRulesFiles 2; RulesFileName "/r/y/1.rules";
       RulesFileName "/r/x/2.rules"; FoundTargetFiles 1;
       ExecutingRules "/r/y/1.rules" 1; ProcessingTarget "/r/t.txt";
       RuleReport 1 "a" "b" 2; BackupCreated "/r/t.txt.backup";
       FileUpdated; ExecutingRules "/r/x/2.rules" 1;
       ProcessingTarget "/r/t.txt"; RuleReport 1 "b" "c" 3;
       BackupCreated "/r/t.txt.backup"; FileUpdated; Done 1 2 false].
Proof.
  split; [|split; [|split]].
  - intros E P. apply main_runs_pairs.
  - intros P rules_files. split; [|split].
    + apply sort_by_key_perm.
    + apply sort_by_key_sorted.
    + intros name. apply sort_by_key_stable.
  - vm_compute. reflexivity.
  - vm_compute. reflexivity.
Qed.

Section FragmentExamples.
Import Fragment.

Example apply_foo_bar :
  apply_rules_to_text "foo foo baz" [("foo", "bar")]
  = Ok ("bar bar baz", [2]).
Proof. vm_compute. reflexivity. Qed.

Example sub_eol_multiline :
  sub true [Eol] "X" (text ["a"; "b"; newline]%char)
  = Some (text ["a"; "b"; "X"; newline; "X"]%char).
Proof. vm_compute. reflexivity. Qed.

Example sub_bol_multiline :
  sub true [Bol] "X" (text ["a"; newline; "b"]%char)
  = Some (text ["X"; "a"; newline; "X"; "b"]%char).
Proof. vm_compute. reflexivity. Qed.

Example compile_star_invalid : parse_pattern true "*" = Invalid.
Proof. reflexivity. Qed.

Example compile_group_unsupported : parse_pattern true "(a)" = Unsupported.
Proof. reflexivity. Qed.

(** The witness of C1: the two rules of the specification's example, with
    the three texts the rules go through. *)
Lemma apply_rules_sequential_witness :
  apply_rules_to_text "aab" [("a", "b"); ("b", "c")] = Ok ("ccc", [2; 3]).
Proof.
  apply (apply_rules_sequential "aab" [("a", "b"); ("b", "c")] "ccc" [2; 3]).
  exists ["aab"; "bbb"; "ccc"]. repeat split.
  intros [|[|i]] pattern replacement [= <- <-].
  - exists "aab", ["a"; "a"]. repeat split. by exists "bbb".
  - exists "bbb", ["b"; "b"; "b"]. repeat split. by exists "ccc".
Defined.

(** C2, as the specification has it, fails: the first rule turns every [a]
    of [aab] into [b], and the second rule then turns all three [b] into
    [c]. *)
Lemma apply_aab_is_not_ccb :
  apply_rules_to_text "aab" [("a", "b"); ("b", "c")] = Ok ("ccc", [2; 3])
  ∧ "ccc" ≠ "ccb".
Proof. split; [vm_compute; reflexivity | discriminate]. Qed.

(** C2, amended. The rules [("a","b")] and [("b","c")] turn [aab] into
    [ccc], with the counts 2 and 3: the second rule sees the output of the
    first ([bbb]), not the input, on which it would count 1 and give
    [aac]. *)
Theorem apply_aab_sequential :
  apply_rules_to_text "aab" [("a", "b"); ("b", "c")] = Ok ("ccc", [2; 3])
  ∧ sub_multiline "a" "b" "aab" = Ok "bbb"
  ∧ findall_multiline "b" "bbb" = Ok ["b"; "b"; "b"]
  ∧ findall_multiline "b" "aab" = Ok ["b"]
  ∧ sub_multiline "b" "c" "aab" = Ok "aac".
Proof. repeat split; vm_compute; reflexivity. Qed.

End FragmentExamples.

(** ** The examples of the specification, run on the fragment engine *)

Section Scenarios.
Import Fragment Posix Examples.

(** The witness of C3: the file of three groups, whose last line has no
    newline. *)
Lemma load_rules_windows_witness :
  load_rules_from_file "/r/more.rules" more_rules_world
  = (Ok (omap rule_of_window
           (windows3 (["foo"; "bar"; EmptyString; EmptyString; "zzz"; "x";
                       "baz"] ++ ["qux"]))),
     log_op (OpRead "/r/more.rules") more_rules_world).
Proof.
  destruct (@load_rules_windows platform)
    as (_ & _ & _ & _ & _ & Hlast & _).
  apply (Hlast "/r/more.rules" more_rules_world (bytes more_rules_text)
           ["foo"; "bar"; EmptyString; EmptyString; "zzz"; "x"; "baz"]
           "qux");
    try reflexivity.
  by repeat constructor.
Defined.

Example load_rules_foo_bar :
  load_rules_from_file "/r/rules.txt" foo_world
  = (Ok [("foo", "bar")], log_op (OpRead "/r/rules.txt") foo_world).
Proof. vm_compute. reflexivity. Qed.

(** The witness of C4: the end-to-end scenario of the specification. *)
Lemma process_file_backup_then_write_witness :
  ∃ w',
    process_file [("foo", "bar")] "/r/t.txt" false false foo_world
    = (Ok true, w')
    ∧ ops w' = [OpRead "/r/t.txt"; OpCopy "/r/t.txt" "/r/t.txt.backup";
                OpWrite "/r/t.txt"]
    ∧ files w' !! "/r/t.txt.backup" = Some (bytes "foo foo baz")
    ∧ files w' !! "/r/t.txt" = Some (bytes "bar bar baz").
Proof.
  destruct (process_file_backup_then_write [("foo", "bar")] "/r/t.txt"
              foo_world) as [Hrun _].
  destruct (Hrun (bytes "foo foo baz") "foo foo baz" "bar bar baz" [2])
    as (w' & Hprocess & Hops & Hbackup & Hfile & _);
    [reflexivity | reflexivity | reflexivity | discriminate |].
  exists w'. repeat split; assumption.
Defined.

(** The witness of C10: a rule that matches nothing. *)
Lemma process_file_unchanged_witness :
  ∃ w',
    process_file [("zzz", "y")] "/r/t.txt" false false foo_world
    = (Ok false, w')
    ∧ files w' = files foo_world
    ∧ ops w' = [OpRead "/r/t.txt"]
    ∧ console w'
      = [ProcessingTarget "/r/t.txt"; RuleReport 1 "zzz" "y" 0; NoChanges].
Proof.
  apply (process_file_unchanged [("zzz", "y")] "/r/t.txt" false false
           foo_world (bytes "foo foo baz") "foo foo baz" [0]);
    reflexivity.
Defined.

(** The witness of C5: a dry run of the same scenario returns [True]. *)
Lemma process_file_dry_run_witness :
  (process_file [("foo", "bar")] "/r/t.txt" false true foo_world).1
  = Ok (bool_decide ("bar bar baz" ≠ "foo foo baz")).
Proof.
  destruct (process_file_dry_run [("foo", "bar")] "/r/t.txt" false
              foo_world) as (_ & _ & Hresult).
  apply (Hresult (bytes "foo foo baz") "foo foo baz" "bar bar baz" [2]);
    reflexivity.
Defined.

Example process_file_dry_run_foo :
  (process_file [("foo", "bar")] "/r/t.txt" false true foo_world).1 = Ok true
  ∧ files (process_file [("foo", "bar")] "/r/t.txt" false true foo_world).2
    = files foo_world
  ∧ ops (process_file [("foo", "bar")] "/r/t.txt" false true foo_world).2
    = [OpRead "/r/t.txt"].
Proof. repeat split. Qed.

(** The witness of C6: the general statement on the example tree. *)
Lemma iter_files_selects_matching_witness :
  iter_files_with_regex "\.txt$" txt_world
  = (Ok (path_under "/home/user"
         <$> filter (λ names,
                       search [Lit "."; Lit "t"; Lit "x"; Lit "t"; Eol]%char
                         (join "/" names) = true)
               [["a.txt"]; ["a.txt.bak"]; ["sub"; "b.txt"]]),
     txt_world).
Proof.
  destruct iter_files_selects_matching as (Hselect & _).
  apply (Hselect engine platform "\.txt$"
           [Lit "."; Lit "t"; Lit "x"; Lit "t"; Eol]%char txt_world);
    reflexivity.
Defined.

(** The search is not anchored: a match inside the path is enough. *)
Example search_inside_path :
  re_compile "bar" = Some [Lit "b"; Lit "a"; Lit "r"]%char
  ∧ search [Lit "b"; Lit "a"; Lit "r"]%char "foo/bar.txt" = true
  ∧ search [Lit "."; Lit "t"; Lit "x"; Lit "t"; Eol]%char "a.txt.bak" = false.
Proof. repeat split. Qed.

(** The witness of C7: two rules files that both change the one target. *)
Lemma main_counts_changed_pairs_witness :
  main (Args false false "\.rules$" "t\.txt$") two_rules_world
  = match run_rules_files
            (sort_by_key os_path_basename ["/r/x/2.rules"; "/r/y/1.rules"])
            ["/r/t.txt"] (Args false false "\.rules$" "t\.txt$")
            (World "/r" (listing two_rules_world) (files two_rules_world)
               [FoundRulesFiles 2; RulesFileName "/r/y/1.rules";
                RulesFileName "/r/x/2.rules"; FoundTargetFiles 1] []) with
    | (Ok rows, w') =>
        (Ok tt, log_line (Done 1 (count_changed rows) false) w')
    | (Raise e, w') => (Raise e, w')
    end.
Proof.
  destruct main_counts_changed_pairs as (Hmain & _).
  apply (Hmain engine platform (Args false false "\.rules$" "t\.txt$")
           two_rules_world ["/r/x/2.rules"; "/r/y/1.rules"] ["/r/t.txt"]);
    [reflexivity | discriminate | reflexivity | discriminate].
Defined.

Example run_two_rules_files :
  (run_rules_files ["/r/y/1.rules"; "/r/x/2.rules"] ["/r/t.txt"]
     (Args false false "\.rules$" "t\.txt$") two_rules_world).1
  = Ok [[true]; [true]]
  ∧ count_changed [[true]; [true]] = 2.
Proof. split; vm_compute; reflexivity. Qed.

(** The witness of C8: the four exits, on one world. *)
Lemma main_exit_codes_witness :
  (main (Args false false "*" "t\.txt$") foo_world).1 = Raise (SystemExit 1)
  ∧ (main (Args false false "zzz" "t\.txt$") foo_world).1
    = Raise (SystemExit 2)
  ∧ (main (Args false false "rules" "*") foo_world).1 = Raise (SystemExit 1)
  ∧ (main (Args false false "rules" "zzz") foo_world).1
    = Raise (SystemExit 2).
Proof.
  repeat apply conj.
  - destruct (main_exit_codes (Args false false "*" "t\.txt$") foo_world)
      as (Hexit & _).
    apply Hexit. reflexivity.
  - destruct (main_exit_codes (Args false false "zzz" "t\.txt$") foo_world)
      as (_ & Hexit & _).
    apply Hexit. reflexivity.
  - destruct (main_exit_codes (Args false false "rules" "*") foo_world)
      as (_ & _ & Hexit & _).
    apply (Hexit ["/r/rules.txt"]); [reflexivity | discriminate | reflexivity].
  - destruct (main_exit_codes (Args false false "rules" "zzz") foo_world)
      as (_ & _ & _ & Hexit).
    apply (Hexit ["/r/rules.txt"]); [reflexivity | discriminate | reflexivity].
Defined.

(** C8, as the specification has it, fails where its two conditions
    meet.  With a rules regex that selects no file and a target regex
    that does not compile, the exit code is 2 and not 1; with a rules
    regex that does not compile and a target regex that selects no file,
    the exit code is 1 and not 2. *)
Lemma main_exit_code_by_first_failure :
  (re_compile "*" = None
   ∧ iter_files_with_regex "zzz" foo_world = (Ok [], foo_world)
   ∧ exit_code (main (Args false false "zzz" "*") foo_world).1 = 2
   ∧ exit_code (main (Args false false "zzz" "*") foo_world).1 ≠ 1)
  ∧ (re_compile "*" = None
     ∧ iter_files_with_regex "zzz" foo_world = (Ok [], foo_world)
     ∧ exit_code (main (Args false false "*" "zzz") foo_world).1 = 1
     ∧ exit_code (main (Args false false "*" "zzz") foo_world).1 ≠ 2).
Proof. repeat split; done. Qed.

End Scenarios.

(** ** Further scenarios, on the fragment engine *)

Section MoreScenarios.
Import Fragment Posix Examples.

(** The witness of X2: the second rule has nothing to repeat. *)
Lemma apply_rules_invalid_pattern_witness :
  (∀ new_text counts,
     apply_rules_to_text "aab" [("a", "b"); ("*", "c")]
     ≠ Ok (new_text, counts))
  ∧ (∀ rules1 rules2 text1 counts1,
       [("a", "b"); ("*", "c")] = (rules1 ++ ("*", "c") :: rules2)%list →
       apply_rules_to_text "aab" rules1 = Ok (text1, counts1) →
       apply_rules_to_text "aab" [("a", "b"); ("*", "c")] = Raise ReError).
Proof.
  apply (apply_rules_invalid_pattern "aab" [("a", "b"); ("*", "c")] "*" "c");
    [|reflexivity].
  apply elem_of_cons. right. apply elem_of_cons. by left.
Defined.

Example apply_rules_invalid_second :
  apply_rules_to_text "aab" [("a", "b")] = Ok ("bbb", [2])
  ∧ apply_rules_to_text "aab" [("a", "b"); ("*", "c")] = Raise ReError.
Proof. split; vm_compute; reflexivity. Qed.

(** The witness of X3. *)
Lemma load_rules_well_formed_witness :
  ∃ rules,
    (load_rules_from_file "/r/rules.txt" foo_world).1 = Ok rules
    ∧ length rules
      ≤ (length (readlines (lines ["foo"; "bar"; EmptyString])) + 1) `div` 3
    ∧ ∀ pattern replacement,
        (pattern, replacement) ∈ rules →
        nonempty pattern = true
        ∧ has_char newline pattern = false
        ∧ has_char newline replacement = false.
Proof.
  apply (load_rules_well_formed "/r/rules.txt" foo_world
           (bytes (lines ["foo"; "bar"; EmptyString]))
           (lines ["foo"; "bar"; EmptyString]));
    reflexivity.
Defined.

(** The witness of X6. *)
Lemma process_file_reports_every_rule_witness :
  ∃ changed w' last_lines,
    process_file [("foo", "bar"); ("baz", "qux")] "/r/t.txt" false true
      foo_world = (Ok changed, w')
    ∧ console w'
      = (console foo_world ++ ProcessingTarget "/r/t.txt"
           :: report_lines [("foo", "bar"); ("baz", "qux")] [2; 1]
           ++ last_lines)%list
    ∧ length (report_lines [("foo", "bar"); ("baz", "qux")] [2; 1])
      = length [("foo", "bar"); ("baz", "qux")]
    ∧ ∀ i pattern replacement,
        [("foo", "bar"); ("baz", "qux")] !! i = Some (pattern, replacement) →
        ∃ cnt,
          [2; 1] !! i = Some cnt
          ∧ report_lines [("foo", "bar"); ("baz", "qux")] [2; 1] !! i
            = Some (RuleReport (S i) pattern replacement cnt).
Proof.
  apply (process_file_reports_every_rule [("foo", "bar"); ("baz", "qux")]
           "/r/t.txt" false true foo_world (bytes "foo foo baz")
           "foo foo baz" "bar bar qux" [2; 1]);
    reflexivity.
Defined.

(** The witness of X7. *)
Lemma process_file_overwrite_witness :
  ∃ w',
    process_file [("foo", "bar")] "/r/t.txt" true false foo_world
    = (Ok true, w')
    ∧ ops w' = (ops foo_world ++ [OpRead "/r/t.txt"; OpWrite "/r/t.txt"])%list
    ∧ files w'
      = <["/r/t.txt" := encode_text "bar bar baz"]> (files foo_world)
    ∧ files w' !! ("/r/t.txt" +:+ ".backup")
      = files foo_world !! ("/r/t.txt" +:+ ".backup").
Proof.
  apply (process_file_overwrite [("foo", "bar")] "/r/t.txt" foo_world
           (bytes "foo foo baz") "foo foo baz" "bar bar baz" [2]);
    [reflexivity | reflexivity | reflexivity | discriminate].
Defined.

(** The witness of X8: the rules file is not touched by a run on the
    target. *)
Lemma process_file_frame_witness :
  files (process_file [("foo", "bar")] "/r/t.txt" false false foo_world).2
    !! "/r/rules.txt"
  = files foo_world !! "/r/rules.txt".
Proof.
  apply (process_file_frame [("foo", "bar")] "/r/t.txt" false false
           foo_world "/r/rules.txt");
    discriminate.
Defined.

(** The witness of X9: foo -> bar, then bar -> qux. *)
Lemma process_file_twice_witness :
  ∃ w1 w2,
    process_file [("foo", "bar")] "/r/t.txt" false false foo_world
    = (Ok true, w1)
    ∧ process_file [("bar", "qux")] "/r/t.txt" false false w1 = (Ok true, w2)
    ∧ files w1 !! ("/r/t.txt" +:+ ".backup") = Some (bytes "foo foo baz")
    ∧ files w2 !! ("/r/t.txt" +:+ ".backup")
      = Some (encode_text "bar bar baz")
    ∧ files w2 !! "/r/t.txt" = Some (encode_text "qux qux baz").
Proof.
  apply (process_file_twice [("foo", "bar")] [("bar", "qux")] "/r/t.txt"
           foo_world (bytes "foo foo baz") "foo foo baz" "bar bar baz" [2]
           "bar bar baz" "qux qux baz" [2]);
    try reflexivity; discriminate.
Defined.

(** The witness of X10. *)
Lemma process_file_invalid_pattern_witness :
  ∃ e,
    process_file [("foo", "bar"); ("*", "c")] "/r/t.txt" false false
      foo_world
    = (Raise e, log_op (OpRead "/r/t.txt") foo_world)
    ∧ ∀ rules1 rules2 text1 counts1,
        [("foo", "bar"); ("*", "c")]
        = (rules1 ++ ("*", "c") :: rules2)%list →
        apply_rules_to_text "foo foo baz" rules1 = Ok (text1, counts1) →
        e = ReError.
Proof.
  apply (process_file_invalid_pattern [("foo", "bar"); ("*", "c")]
           "/r/t.txt" false false foo_world (bytes "foo foo baz")
           "foo foo baz" "*" "c");
    [reflexivity | reflexivity | | reflexivity].
  apply elem_of_cons. right. apply elem_of_cons. by left.
Defined.

(** The witness of X11. *)
Lemma main_dry_run_changes_no_file_witness :
  files (main (Args false true "\.rules$" "t\.txt$") two_rules_world).2
  = files two_rules_world
  ∧ ∃ reads,
      ops (main (Args false true "\.rules$" "t\.txt$") two_rules_world).2
      = (ops two_rules_world ++ reads)%list
      ∧ Forall is_read reads.
Proof.
  apply (main_dry_run_changes_no_file
           (Args false true "\.rules$" "t\.txt$") two_rules_world).
  reflexivity.
Defined.

(** The witness of X12: the rules file of [foo_world] is no target. *)
Lemma main_changes_targets_only_witness :
  files (main (Args false false "rules" "t\.txt$") foo_world).2
    !! "/r/rules.txt"
  = files foo_world !! "/r/rules.txt".
Proof.
  apply (main_changes_targets_only (Args false false "rules" "t\.txt$")
           foo_world "/r/rules.txt").
  intros target_files t [= <-] Ht.
  apply list_elem_of_singleton in Ht as ->. by split.
Defined.

(** The witness of X13. *)
Lemma main_overwrite_makes_no_backup_witness :
  ∃ new,
    ops (main (Args true false "\.rules$" "t\.txt$") two_rules_world).2
    = (ops two_rules_world ++ new)%list
    ∧ Forall (λ o, ¬ is_copy o) new.
Proof.
  apply (main_overwrite_makes_no_backup
           (Args true false "\.rules$" "t\.txt$") two_rules_world).
  reflexivity.
Defined.

(** The witness of X14: the two rules files, in the two orders. *)
Lemma sort_by_key_order_independent_witness :
  sort_by_key os_path_basename ["/r/x/2.rules"; "/r/y/1.rules"]
  = sort_by_key os_path_basename ["/r/y/1.rules"; "/r/x/2.rules"].
Proof.
  apply (sort_by_key_order_independent os_path_basename
           ["/r/x/2.rules"; "/r/y/1.rules"] ["/r/y/1.rules"; "/r/x/2.rules"]).
  - apply Permutation_swap.
  - repeat constructor.
    + intros [[=]|[]%elem_of_nil]%elem_of_cons.
    + by intros ?%elem_of_nil.
Defined.

(** The witness of X15. *)
Lemma sort_by_key_sorted_id_witness :
  sort_by_key os_path_basename ["/r/y/1.rules"; "/r/x/2.rules"]
  = ["/r/y/1.rules"; "/r/x/2.rules"].
Proof.
  apply (sort_by_key_sorted_id os_path_basename
           ["/r/y/1.rules"; "/r/x/2.rules"]).
  repeat constructor.
Defined.

(** The witness of X16. *)
Lemma iter_files_no_duplicates_witness :
  ∃ selection,
    iter_files_with_regex "\.txt$" txt_world = (Ok selection, txt_world)
    ∧ NoDup selection.
Proof.
  apply (@iter_files_no_duplicates engine platform "\.txt$"
           [Lit "."; Lit "t"; Lit "x"; Lit "t"; Eol]%char txt_world);
    reflexivity.
Defined.

(** The witness of X18: the rules file of [foo_world] is in the
    documented format. *)
Lemma load_formatted_rules_witness :
  load_rules_from_file "/r/rules.txt" foo_world
  = (Ok [("foo", "bar")], log_op (OpRead "/r/rules.txt") foo_world).
Proof.
  apply (load_formatted_rules "/r/rules.txt" foo_world
           (bytes (lines ["foo"; "bar"; EmptyString])) [("foo", "bar")]);
    [by repeat constructor | reflexivity | reflexivity].
Defined.

(** The witness of X20. *)
Lemma main_total_bound_witness :
  ∃ total,
    last (console
            (main (Args false false "\.rules$" "t\.txt$")
               two_rules_world).2)
    = Some (Done (length ["/r/t.txt"]) total false)
    ∧ total ≤ length ["/r/x/2.rules"; "/r/y/1.rules"] * length ["/r/t.txt"].
Proof.
  apply (main_total_bound (Args false false "\.rules$" "t\.txt$")
           two_rules_world ["/r/x/2.rules"; "/r/y/1.rules"] ["/r/t.txt"]);
    [reflexivity | discriminate | reflexivity | discriminate | reflexivity].
Defined.

End MoreScenarios.
